(** * kmscale-pubs: the two text parsers of [scripts/]

    A shallow embedding of
    - [extract_basic_metadata] of [scripts/add_arxiv_paper.py] (the
      front-matter extractor), and
    - [extract_entries] and [parse_fields] of [scripts/download_pdfs.py]
      (the BibTeX record parser),
    followed by the properties that the specification states about them.

    Modelling conventions.
    - A Python [str] is a list of characters; a character is a code point
      below 256 (Rocq's [ascii]).  The classification tables ([isspace],
      [\w], [\d], [lower], the line boundaries of [splitlines]) are
      Python's tables restricted to that range.
    - Indices and lengths are [nat]: every index the code computes is
      non-negative.  A slice [s[a:b]] clamps as Python does.
    - An operation that can raise in Python (indexing a string or a list,
      calling [group] on a group that did not take part in the match)
      returns [option]; [None] stands for the exception.
    - [while] loops whose trip count is not bounded by the syntax of the
      data take a fuel argument; running out of fuel is [None] as well, and
      the theorems below show that it never happens.
    - A [dict] is a [gmap]; assignment [d[k] = v] is [<[k:=v]> d]. *)

From Stdlib Require Import Ascii String NArith.
From stdpp Require Import gmap strings list.

Coercion list_ascii_of_string : string >-> list.
Abbreviation str := (list ascii).

(** ** Characters *)

Module Char.

Definition code (c : ascii) : N := N_of_ascii c.

Definition between (lo hi : N) (c : ascii) : bool :=
  (lo <=? code c)%N && (code c <=? hi)%N.

Definition is_code (n : N) (c : ascii) : bool := (code c =? n)%N.

Definition eqb (a b : ascii) : bool := (code a =? code b)%N.

(** [str.isspace] on one character; also the class [\s] of [re] and the
    set that [str.strip()] removes. *)
Definition is_space (c : ascii) : bool :=
  between 9 13 c || between 28 32 c || is_code 133 c || is_code 160 c.

(** The line boundaries of [str.splitlines]. *)
Definition is_linebreak (c : ascii) : bool :=
  between 10 13 c || between 28 30 c || is_code 133 c.

(** The class [\d] of [re] on [str] patterns: decimal digits. *)
Definition is_digit (c : ascii) : bool := between 48 57 c.

(** Alphabetic characters ([str.isalpha]). *)
Definition is_alpha (c : ascii) : bool :=
  between 65 90 c || between 97 122 c
  || is_code 170 c || is_code 181 c || is_code 186 c
  || between 192 214 c || between 216 246 c || between 248 255 c.

(** Characters with a numeric value that are not decimal digits
    (superscripts and vulgar fractions). *)
Definition is_numeric_other (c : ascii) : bool :=
  is_code 178 c || is_code 179 c || is_code 185 c || between 188 190 c.

(** The class [\w] of [re] on [str] patterns: alphanumerics and [_]. *)
Definition is_word (c : ascii) : bool :=
  is_alpha c || is_digit c || is_numeric_other c || is_code 95 c.

(** [str.lower] on one character. *)
Definition lower (c : ascii) : ascii :=
  if between 65 90 c || between 192 214 c || between 216 222 c
  then ascii_of_N (code c + 32)
  else c.

Definition newline : ascii := ascii_of_N 10.
Definition cr : ascii := ascii_of_N 13.
Definition tab : ascii := ascii_of_N 9.

End Char.

(** ** The [str] methods the two scripts use *)

Module Str.

Fixpoint eqb (a b : str) : bool :=
  match a, b with
  | [], [] => true
  | x :: a', y :: b' => Char.eqb x y && eqb a' b'
  | _, _ => false
  end.

(** [c in chars] for a one-character string [c]. *)
Definition mem (c : ascii) (chars : str) : bool :=
  existsb (Char.eqb c) chars.

(** [s[a:b]] for [0 <= a] and [0 <= b]. *)
Definition slice (s : str) (a b : nat) : str := take (b - a) (drop a s).

(** [s.startswith(p)] *)
Fixpoint startswith (s p : str) : bool :=
  match p, s with
  | [], _ => true
  | x :: p', y :: s' => Char.eqb x y && startswith s' p'
  | _ :: _, [] => false
  end.

(** [s.endswith(p)] *)
Definition endswith (s p : str) : bool := startswith (rev s) (rev p).

(** [sub in s] *)
Fixpoint contains (sub s : str) : bool :=
  startswith s sub ||
  match s with
  | [] => false
  | _ :: s' => contains sub s'
  end.

(** [s.find(c, start)] for a one-character [c]: [None] is Python's [-1]. *)
Fixpoint find_in (c : ascii) (rest : str) (i : nat) : option nat :=
  match rest with
  | [] => None
  | x :: rest' => if Char.eqb x c then Some i else find_in c rest' (S i)
  end.

Definition find (s : str) (c : ascii) (start : nat) : option nat :=
  find_in c (drop start s) start.

Fixpoint lstrip_by (p : ascii → bool) (s : str) : str :=
  match s with
  | [] => []
  | c :: s' => if p c then lstrip_by p s' else s
  end.

Fixpoint rstrip_by (p : ascii → bool) (s : str) : str :=
  match s with
  | [] => []
  | c :: s' =>
      match rstrip_by p s' with
      | [] => if p c then [] else [c]
      | t => c :: t
      end
  end.

Definition strip_by (p : ascii → bool) (s : str) : str :=
  rstrip_by p (lstrip_by p s).

(** [s.rstrip()], [s.strip()] and [s.strip(chars)] *)
Definition rstrip (s : str) : str := rstrip_by Char.is_space s.
Definition strip (s : str) : str := strip_by Char.is_space s.
Definition strip_chars (chars s : str) : str :=
  strip_by (λ c, mem c chars) s.

(** [s.lower()] *)
Definition lower (s : str) : str := map Char.lower s.

(** [sep.join(parts)] *)
Fixpoint join (sep : str) (parts : list str) : str :=
  match parts with
  | [] => []
  | [p] => p
  | p :: rest => p ++ sep ++ join sep rest
  end.

(** [s.replace(old, new)] for a non-empty [old]: the occurrences are
    found left to right and do not overlap.  [skip] counts the characters
    of an occurrence that are still to be passed over. *)
Fixpoint replace_from (old new : str) (s : str) (skip : nat) : str :=
  match s with
  | [] => []
  | c :: s' =>
      match skip with
      | S n => replace_from old new s' n
      | 0 =>
          if startswith s old
          then new ++ replace_from old new s' (length old - 1)
          else c :: replace_from old new s' 0
      end
  end.

Definition replace (s old new : str) : str := replace_from old new s 0.

(** [s.splitlines()]: [cur] is the line being read. *)
Fixpoint splitlines_from (s : str) (cur : str) : list str :=
  match s with
  | [] => match cur with [] => [] | _ => [cur] end
  | c :: s' =>
      if Char.eqb c Char.cr then
        match s' with
        | c' :: s'' =>
            if Char.eqb c' Char.newline
            then cur :: splitlines_from s'' []
            else cur :: splitlines_from s' []
        | [] => [cur]
        end
      else if Char.is_linebreak c then cur :: splitlines_from s' []
      else splitlines_from s' (cur ++ [c])
  end.

Definition splitlines (s : str) : list str := splitlines_from s [].

(** A truth test [if s:] / [not s] on a string. *)
Definition nonempty (s : str) : bool :=
  match s with [] => false | _ => true end.

End Str.

(** ** A backtracking matcher for the patterns of the two scripts

    The fragment of [re] that the scripts use: literal characters and
    character classes, concatenation, alternation, greedy and lazy
    quantifiers on a character class, a bounded greedy quantifier on a
    sub-pattern, capture groups and the anchors [^] and [$].  The matcher
    tries the alternatives in the order of Python's engine (the longest run
    first for a greedy quantifier, the shortest first for a lazy one, the
    left branch of [|] first) and returns the first complete match. *)

Module Re.

Inductive regex : Type :=
| Eps : regex
| Cls (p : ascii → bool) : regex
| Cat (r1 r2 : regex) : regex
| Alt (r1 r2 : regex) : regex
| Rep (greedy : bool) (lo : nat) (hi : option nat) (p : ascii → bool) : regex
| Times (lo hi : nat) (r : regex) : regex
| Group (n : nat) (r : regex) : regex
| Bol : regex
| Eol : regex.

(** The spans [(start, end)] of the groups that took part in the match,
    the most recent first. *)
Abbreviation caps := (list (nat * (nat * nat))).

(** The state of a match attempt: the position in the subject, the rest of
    the subject from there, and the groups so far. *)
Abbreviation cont := (nat → str → caps → option (nat * caps)).

Definition or_else {A} (a b : option A) : option A :=
  match a with Some x => Some x | None => b end.

Definition hi_allows (hi : option nat) : bool :=
  match hi with Some 0 => false | _ => true end.

Definition hi_pred (hi : option nat) : option nat :=
  match hi with Some n => Some (pred n) | None => None end.

(** [p{lo,hi}] (greedy) and [p{lo,hi}?] (lazy) on a character class. *)
Fixpoint rep (greedy : bool) (p : ascii → bool) (lo : nat) (hi : option nat)
    (pos : nat) (rest : str) (cs : caps) (k : cont) : option (nat * caps) :=
  let stop := if lo =? 0 then k pos rest cs else None in
  match rest with
  | c :: rest' =>
      if p c && hi_allows hi then
        if greedy
        then or_else (rep greedy p (pred lo) (hi_pred hi) (S pos) rest' cs k) stop
        else or_else stop (rep greedy p (pred lo) (hi_pred hi) (S pos) rest' cs k)
      else stop
  | [] => stop
  end.

Fixpoint run (r : regex) (pos : nat) (rest : str) (cs : caps) (k : cont)
    : option (nat * caps) :=
  match r with
  | Eps => k pos rest cs
  | Cls p =>
      match rest with
      | c :: rest' => if p c then k (S pos) rest' cs else None
      | [] => None
      end
  | Cat r1 r2 => run r1 pos rest cs (λ pos' rest' cs', run r2 pos' rest' cs' k)
  | Alt r1 r2 => or_else (run r1 pos rest cs k) (run r2 pos rest cs k)
  | Rep greedy lo hi p => rep greedy p lo hi pos rest cs k
  | Times lo hi r1 =>
      (fix go (n lo : nat) (pos : nat) (rest : str) (cs : caps)
          : option (nat * caps) :=
         let stop := if lo =? 0 then k pos rest cs else None in
         match n with
         | 0 => stop
         | S n' =>
             or_else (run r1 pos rest cs (λ pos' rest' cs', go n' (pred lo) pos' rest' cs'))
                     stop
         end) hi lo pos rest cs
  | Group n r1 =>
      run r1 pos rest cs (λ pos' rest' cs', k pos' rest' ((n, (pos, pos')) :: cs'))
  | Bol => if pos =? 0 then k pos rest cs else None
  | Eol =>
      match rest with
      | [] => k pos rest cs
      | [c] => if Char.eqb c Char.newline then k pos rest cs else None
      | _ => None
      end
  end.

(** A match object: the span of the whole match and the groups. *)
Record match_obj : Type := Match { m_start : nat; m_end : nat; m_caps : caps }.

Definition finish : cont := λ pos _ cs, Some (pos, cs).

Definition match_at (r : regex) (pos : nat) (rest : str) : option match_obj :=
  match run r pos rest [] finish with
  | Some (e, cs) => Some (Match pos e cs)
  | None => None
  end.

(** The leftmost match at or after [pos], where [rest] is the subject from
    [pos] on. *)
Fixpoint search_in (r : regex) (pos : nat) (rest : str) : option match_obj :=
  match match_at r pos rest with
  | Some m => Some m
  | None =>
      match rest with
      | [] => None
      | _ :: rest' => search_in r (S pos) rest'
      end
  end.

(** [pattern.search(s, pos)], [pattern.search(s)] and [pattern.match(s)] *)
Definition search_from (r : regex) (s : str) (pos : nat) : option match_obj :=
  if pos <=? length s then search_in r pos (drop pos s) else None.
Definition search (r : regex) (s : str) : option match_obj := search_in r 0 s.
Definition match_ (r : regex) (s : str) : option match_obj := match_at r 0 s.

(** [m.group(0)] and [m.group(n)] for [n > 0] on a match in [s]; [None]
    when the group did not take part in the match. *)
Definition group0 (s : str) (m : match_obj) : str :=
  Str.slice s (m_start m) (m_end m).

Fixpoint lookup_group (n : nat) (cs : caps) : option (nat * nat) :=
  match cs with
  | [] => None
  | (g, span) :: cs' => if g =? n then Some span else lookup_group n cs'
  end.

Definition group (s : str) (m : match_obj) (n : nat) : option str :=
  match lookup_group n (m_caps m) with
  | Some (a, b) => Some (Str.slice s a b)
  | None => None
  end.

(** [re.sub(pattern, repl, s)] for a pattern that matches no empty string
    and a [repl] without group references.  [skip] counts the characters
    of the current match that are still to be passed over. *)
Fixpoint sub_from (r : regex) (repl : str) (pos : nat) (rest : str) (skip : nat)
    : str :=
  match rest with
  | [] => []
  | c :: rest' =>
      match skip with
      | S n => sub_from r repl (S pos) rest' n
      | 0 =>
          match match_at r pos rest with
          | Some m =>
              if m_end m <=? pos
              then c :: sub_from r repl (S pos) rest' 0
              else repl ++ sub_from r repl (S pos) rest' (m_end m - pos - 1)
          | None => c :: sub_from r repl (S pos) rest' 0
          end
      end
  end.

Definition sub (r : regex) (repl s : str) : str := sub_from r repl 0 s 0.

(** Pattern syntax. *)
Definition chr (s : string) : regex :=
  match s with
  | String c _ => Cls (Char.eqb c)
  | EmptyString => Eps
  end.
Definition one_of (chars : string) : ascii → bool := λ c, Str.mem c chars.
Definition none_of (p : ascii → bool) : ascii → bool := λ c, negb (p c).
Definition either (p q : ascii → bool) : ascii → bool := λ c, p c || q c.
Definition plus (p : ascii → bool) : regex := Rep true 1 None p.
Definition star (p : ascii → bool) : regex := Rep true 0 None p.
Definition dot : ascii → bool := λ c, negb (Char.eqb c Char.newline).

Declare Scope re_scope.
Delimit Scope re_scope with re.
Bind Scope re_scope with regex.
Infix "·" := Cat (at level 60, right associativity) : re_scope.

End Re.

(** ** Python string literals

    [py] reads the escapes [\n], [\t], [\r], [\\] and [\q] (a double quote)
    of a literal, so that the inputs below can be written on one line. *)

Fixpoint py (s : string) : str :=
  match s with
  | EmptyString => []
  | String c s' =>
      if Char.eqb c "\" then
        match s' with
        | String e s'' =>
            if Char.eqb e "n" then Char.newline :: py s''
            else if Char.eqb e "t" then Char.tab :: py s''
            else if Char.eqb e "r" then Char.cr :: py s''
            else if Char.eqb e "q" then ascii_of_N 34 :: py s''
            else if Char.eqb e "\" then e :: py s''
            else c :: py s'
        | EmptyString => [c]
        end
      else c :: py s'
  end.

(** ** [scripts/add_arxiv_paper.py]: the front-matter extractor *)

Module Arxiv.
Import Re.

(** The dictionary that [extract_basic_metadata] returns has exactly these
    four keys. *)
Record metadata : Type := Metadata {
  title : str;
  author : str;
  year : str;
  primary_class : str
}.

Definition affiliation_keywords : list str :=
  [ "university" : str; "institute" : str; "department" : str;
    "laboratory" : str; "centre" : str; "center" : str; "school" : str;
    "college" : str; "observatory" : str; "academy" : str; "faculty" : str ].

Definition looks_like_affiliation (line : str) : bool :=
  let lower := Str.lower line in
  existsb (λ keyword, Str.contains keyword lower) affiliation_keywords
  || Str.contains "@" line.

(** The inner function [looks_like_author] is defined in the script but
    never called; the author loop tests [name_pattern] instead. *)

(** [for line in lines[:80]: ...]: collects [header_lines] up to the
    abstract and remembers the last line that starts with [arXiv:]. *)
Fixpoint header_loop (lines : list str) (header_lines : list str)
    (arxiv_line : str) : list str * str :=
  match lines with
  | [] => (header_lines, arxiv_line)
  | line :: lines' =>
      let stripped := Str.strip line in
      if Str.startswith (Str.lower stripped) "abstract"
      then (header_lines, arxiv_line)
      else
        let header_lines := header_lines ++ [line] in
        let arxiv_line :=
          if Str.startswith stripped "arXiv:" then stripped else arxiv_line in
        header_loop lines' header_lines arxiv_line
  end.

(** [for idx, line in enumerate(header_lines): ...]: the title loop, with
    its three variables [title_lines], [started] and [title_end_index]. *)
Fixpoint title_loop (lines : list str) (idx : nat) (title_lines : list str)
    (started : bool) (title_end_index : nat) : list str * nat :=
  match lines with
  | [] => (title_lines, title_end_index)
  | line :: lines' =>
      let stripped := Str.strip line in
      if Str.startswith stripped "arXiv:" then
        title_loop lines' (S idx) title_lines started title_end_index
      else if negb started then
        if Str.nonempty stripped
        then title_loop lines' (S idx) (title_lines ++ [stripped]) true idx
        else title_loop lines' (S idx) title_lines started title_end_index
      else if negb (Str.nonempty stripped) then
        (title_lines, title_end_index)
      else
        title_loop lines' (S idx) (title_lines ++ [stripped]) started idx
  end.

(** [name_pattern], the pattern
    [^[A-Z][\\w'.-]+(?:\\s+[A-Z][\\w'.-]+){1,3}$] of a raw string literal:
    in it [\\] is an escaped backslash, so the class [[\\w'.-]] holds the
    five characters backslash, [w], ['], [.] and [-], and [\\s+] is a
    backslash followed by one or more letters [s]. *)
Definition upper_az : ascii → bool := Char.between 65 90.
Definition name_tail : ascii → bool := one_of "\w'.-".
Definition name_pattern : regex :=
  (Bol · Cls upper_az · plus name_tail
   · Times 1 3 (chr "\" · plus (Char.eqb "s") · Cls upper_az · plus name_tail)
   · Eol)%re.

(** [\[(.+?)\]] and [(19|20)\d{2}] *)
Definition class_pattern : regex :=
  (chr "[" · Group 1 (Rep false 1 None dot) · chr "]")%re.
Definition year_pattern : regex :=
  (Group 1 (Alt (chr "1" · chr "9") (chr "2" · chr "0"))
   · Rep true 2 (Some 2) Char.is_digit)%re.

(** [\*], [\d+] and [\s{2,}] *)
Definition star_pattern : regex := chr "*".
Definition digits_pattern : regex := plus Char.is_digit.
Definition spaces_pattern : regex := Rep true 2 None Char.is_space.

(** [for idx, line in enumerate(remaining_lines): ...]: the author loop.
    [lines] is what is left of [remaining_lines] at index [idx]. *)
Fixpoint author_loop (remaining_lines : list str) (lines : list str) (idx : nat)
    (author_lines : list str) : option (list str) :=
  match lines with
  | [] => Some author_lines
  | line :: lines' =>
      let stripped := Str.strip line in
      next_line ←
        (if idx + 1 <? length remaining_lines
         then l ← remaining_lines !! (idx + 1); Some (Str.strip l)
         else Some []);
      if negb (Str.nonempty stripped) || looks_like_affiliation stripped then
        author_loop remaining_lines lines' (S idx) author_lines
      else if Str.contains "," stripped then
        author_loop remaining_lines lines' (S idx) author_lines
      else if bool_decide (is_Some (match_ name_pattern stripped))
              || looks_like_affiliation next_line then
        author_loop remaining_lines lines' (S idx) (author_lines ++ [stripped])
      else
        author_loop remaining_lines lines' (S idx) author_lines
  end.

Definition extract_basic_metadata (text : str) : option metadata :=
  let lines := map Str.rstrip (Str.splitlines text) in
  let '(header_lines, arxiv_line) := header_loop (take 80 lines) [] [] in
  let '(title_lines, title_end_index) := title_loop header_lines 0 [] false 0 in
  let title := Str.strip (Str.replace (Str.join " " title_lines) "  " " ") in
  let remaining_lines := drop (title_end_index + 1) header_lines in
  author_lines ← author_loop remaining_lines remaining_lines 0 [];
  let authors_raw :=
    Str.strip (Str.replace (Str.join " and " author_lines) "  " " ") in
  let authors_raw := sub star_pattern [] authors_raw in
  let authors_raw := sub digits_pattern [] authors_raw in
  let authors_raw := Str.strip_chars ", " (sub spaces_pattern " " authors_raw) in
  let author_field := authors_raw in
  '(year, primary_class) ←
    (if Str.nonempty arxiv_line then
       primary_class ←
         match search class_pattern arxiv_line with
         | Some class_match => group arxiv_line class_match 1
         | None => Some []
         end;
       let year :=
         match search year_pattern arxiv_line with
         | Some year_match => group0 arxiv_line year_match
         | None => []
         end in
       Some (year, primary_class)
     else Some ([], []));
  Some (Metadata title author_field year primary_class).

End Arxiv.

(** ** [scripts/download_pdfs.py]: the BibTeX record parser *)

Module Bib.
Import Re.

Definition dquote : ascii := ascii_of_N 34.

(** [ENTRY_START_RE], [@\w+\s*{], and [KEY_RE], [@\w+\s*{\s*([^,\s]+)].
    Both are compiled with [re.IGNORECASE], which changes nothing here:
    neither pattern holds a letter. *)
Definition ENTRY_START_RE : regex :=
  (chr "@" · plus Char.is_word · star Char.is_space · chr "{")%re.
Definition KEY_RE : regex :=
  (chr "@" · plus Char.is_word · star Char.is_space · chr "{"
   · star Char.is_space
   · Group 1 (plus (none_of (either (Char.eqb ",") Char.is_space))))%re.

(** *** [extract_entries] *)

(** [for pos in range(brace_idx, len(text)): ...] with [depth]: the
    position after the brace that brings [depth] back to 0, or [None]
    when the loop ends with [end] still [None]. *)
Fixpoint depth_scan (rest : str) (pos : nat) (depth : Z) : option nat :=
  match rest with
  | [] => None
  | char :: rest' =>
      if Char.eqb char "{" then depth_scan rest' (S pos) (depth + 1)
      else if Char.eqb char "}" then
        let depth := (depth - 1)%Z in
        if (depth =? 0)%Z then Some (pos + 1)
        else depth_scan rest' (S pos) depth
      else depth_scan rest' (S pos) depth
  end.

(** One turn of [while True:]: the span [(start, end)] of the next entry,
    or [None] for each of the three [break]s. *)
Definition next_entry (text : str) (idx : nat) : option (nat * nat) :=
  match search_from ENTRY_START_RE text idx with
  | None => None
  | Some m =>
      let start := m_start m in
      match Str.find text "{" (m_end m - 1) with
      | None => None
      | Some brace_idx =>
          match depth_scan (drop brace_idx text) brace_idx 0 with
          | None => None
          | Some end_ => Some (start, end_)
          end
      end
  end.

Fixpoint entries_loop (fuel : nat) (text : str) (idx : nat) (entries : list str)
    : option (list str) :=
  match fuel with
  | 0 => None
  | S fuel' =>
      match next_entry text idx with
      | None => Some entries
      | Some (start, end_) =>
          entries_loop fuel' text end_ (entries ++ [Str.slice text start end_])
      end
  end.

Definition extract_entries (text : str) : option (list str) :=
  entries_loop (S (length text)) text 0 [].

(** *** [parse_fields] *)

(** [while i < length and fields_text[i] in chars: i += 1], where [rest]
    is [fields_text] from [i] on; [skip_notin] is the loop with [not in]. *)
Fixpoint skip_while (p : ascii → bool) (rest : str) (i : nat) : nat :=
  match rest with
  | [] => i
  | c :: rest' => if p c then skip_while p rest' (S i) else i
  end.

Definition skip_in (chars : str) (s : str) (i : nat) : nat :=
  skip_while (λ c, Str.mem c chars) (drop i s) i.
Definition skip_notin (chars : str) (s : str) (i : nat) : nat :=
  skip_while (λ c, negb (Str.mem c chars)) (drop i s) i.

(** [while i < length and depth > 0: ...]: the scan of a braced value. *)
Fixpoint brace_loop (rest : str) (i : nat) (depth : Z) : nat :=
  match rest with
  | [] => i
  | c :: rest' =>
      if (0 <? depth)%Z then
        let depth :=
          if Char.eqb c "{" then (depth + 1)%Z
          else if Char.eqb c "}" then (depth - 1)%Z
          else depth in
        brace_loop rest' (S i) depth
      else i
  end.

(** The last loop of the body: move past the next comma unless a newline
    comes first. *)
Fixpoint advance (rest : str) (i : nat) : nat :=
  match rest with
  | [] => i
  | c :: rest' =>
      if Str.mem c (py "\n") then i
      else if Char.eqb c "," then S i
      else advance rest' (S i)
  end.

(** The field-value sub-parser: the [if delimiter in ...] block of the
    body, which reads the value that starts at [i] with [delimiter] and
    returns it with the cursor after it. *)
Definition read_value (fields_text : str) (i : nat) (delimiter : ascii)
    : str * nat :=
  if Str.mem delimiter (py "{\q") then
    if Char.eqb delimiter "{" then
      let i := i + 1 in
      let value_start := i in
      let i := brace_loop (drop i fields_text) i 1 in
      (Str.strip (Str.slice fields_text value_start (i - 1)), i)
    else
      let i := i + 1 in
      let value_start := i in
      let i := skip_notin (py "\q") fields_text i in
      (Str.strip (Str.slice fields_text value_start i), i + 1)
  else
    let value_start := i in
    let i := skip_notin (py ",\n") fields_text i in
    (Str.strip (Str.slice fields_text value_start i), i).

(** What one turn of [while i < length:] does: leave the loop, or record
    a field and continue at a new cursor. *)
Inductive turn : Type :=
| Break : turn
| Assign (field_key value : str) (i : nat) : turn.

Definition field_turn (fields_text : str) (i : nat) : option turn :=
  let length := length fields_text in
  let i := skip_in (py "\n\r\t ,") fields_text i in
  if length <=? i then Some Break else
  let key_start := i in
  let i := skip_notin "=" fields_text i in
  let field_key := Str.lower (Str.strip (Str.slice fields_text key_start i)) in
  if negb (Str.nonempty field_key) then Some Break else
  let i := i + 1 in
  let i := skip_in (py " \t\n\r") fields_text i in
  if length <=? i then Some Break else
  delimiter ← fields_text !! i;
  let '(value, i) := read_value fields_text i delimiter in
  Some (Assign field_key value (advance (drop i fields_text) i)).

Fixpoint fields_loop (fuel : nat) (fields_text : str) (i : nat)
    (fields : gmap str str) : option (gmap str str) :=
  match fuel with
  | 0 => None
  | S fuel' =>
      if i <? length fields_text then
        t ← field_turn fields_text i;
        match t with
        | Break => Some fields
        | Assign field_key value i' =>
            fields_loop fuel' fields_text i' (<[field_key := value]> fields)
        end
      else Some fields
  end.

(** The loop on a field-list text, from [fields = {}] and [i = 0]. *)
Definition parse_fields_text (fields_text : str) : option (gmap str str) :=
  fields_loop (S (length fields_text)) fields_text 0 ∅.

(** [fields_text]: what follows the comma at [body_start], trimmed, without
    its last character when that is a closing brace. *)
Definition field_list_text (entry_text : str) (body_start : nat) : str :=
  let fields_text := Str.strip (drop (body_start + 1) entry_text) in
  if Str.endswith fields_text "}"
  then take (length fields_text - 1) fields_text
  else fields_text.

(** [parse_fields] returns the pair [(key, fields)]; the key is [None]
    when [KEY_RE] does not match. *)
Definition parse_fields (entry_text : str)
    : option (option str * gmap str str) :=
  match search KEY_RE entry_text with
  | None => Some (None, ∅)
  | Some key_match =>
      g ← group entry_text key_match 1;
      let key := Str.strip g in
      match Str.find entry_text "," (m_end key_match) with
      | None => Some (Some key, ∅)
      | Some body_start =>
          let fields_text := field_list_text entry_text body_start in
          fields ← parse_fields_text fields_text;
          Some (Some key, fields)
      end
  end.

End Bib.

(** ** Notions used to state the properties *)

(** A dictionary literal [{"name": "value", ...}]. *)
Definition dict (l : list (string * string)) : gmap str str :=
  list_to_map (map (λ kv, (list_ascii_of_string kv.1, list_ascii_of_string kv.2)) l).

(** *** The header window and the title block, as the specification
    describes them *)

Module Header.

Definition is_abstract (line : str) : bool :=
  Str.startswith (Str.lower (Str.strip line)) "abstract".

(** The banner is a line whose trimmed content starts with [arXiv:]. *)
Definition is_banner (line : str) : bool :=
  Str.startswith (Str.strip line) "arXiv:".

Definition is_blank (line : str) : bool := negb (Str.nonempty (Str.strip line)).

Fixpoint take_until {A} (p : A → bool) (l : list A) : list A :=
  match l with
  | [] => []
  | x :: l' => if p x then [] else x :: take_until p l'
  end.

(** At most the first 80 lines, cut before the first line that starts
    with "abstract". *)
Definition window (text : str) : list str :=
  take_until is_abstract (take 80 (map Str.rstrip (Str.splitlines text))).

(** The lines [a], ..., [b - 1] of the window. *)
Definition lines_between (lines : list str) (a b : nat) : list str :=
  take (b - a) (drop a lines).

(** Line [a] is the first line that is neither blank nor a banner. *)
Definition first_title_line (lines : list str) (a : nat) : bool :=
  forallb (λ l, is_blank l || is_banner l) (take a lines)
  && match lines !! a with
     | Some l => negb (is_blank l) && negb (is_banner l)
     | None => false
     end.

(** Line [b] is the first blank line after line [a]. *)
Definition first_blank_after (lines : list str) (a b : nat) : bool :=
  (a <? b)
  && forallb (λ l, negb (is_blank l)) (lines_between lines (S a) b)
  && match lines !! b with
     | Some l => is_blank l
     | None => false
     end.

Definition not_banner (line : str) : bool := negb (is_banner line).

(** The title loop, as a function of the lines that are not banners. *)
Fixpoint title_block (started : bool) (lines : list str) : list str :=
  match lines with
  | [] => []
  | line :: lines' =>
      if is_banner line then title_block started lines'
      else if is_blank line then
        if started then [] else title_block started lines'
      else Str.strip line :: title_block true lines'
  end.

(** The word read so far, if any. *)
Definition flush (cur : str) : list str :=
  match cur with [] => [] | _ => [cur] end.

(** The words of a string: its maximal runs of characters that are not
    whitespace.  Two strings are equal modulo whitespace normalization
    when they have the same words. *)

Fixpoint words_from (s : str) (cur : str) : list str :=
  match s with
  | [] => flush cur
  | c :: s' =>
      if Char.is_space c
      then flush cur ++ words_from s' []
      else words_from s' (cur ++ [c])
  end.

Definition words (s : str) : list str := words_from s [].

Definition ws_equal (s t : str) : Prop := words s = words t.

(** A 4-digit string that begins with 19 or 20. *)
Definition is_year (w : str) : bool :=
  match w with
  | [a; b; c; d] =>
      (Char.eqb a "1" && Char.eqb b "9" || Char.eqb a "2" && Char.eqb b "0")
      && Char.is_digit c && Char.is_digit d
  | _ => false
  end.

(** The specification's "capitalized name" shape: 2 to 4 tokens separated
    by whitespace, each starting with an uppercase letter, none an
    all-uppercase word longer than 2 characters. *)
Definition is_upper (c : ascii) : bool :=
  Char.between 65 90 c || Char.between 192 214 c || Char.between 216 222 c.

Definition name_shape (line : str) : bool :=
  let tokens := words line in
  (2 <=? length tokens) && (length tokens <=? 4)
  && forallb (λ t, match t with c :: _ => is_upper c | [] => false end
                   && negb (forallb is_upper t && (2 <? length t))) tokens.

End Header.

(** *** The BibTeX parser: what its loops do, as lists *)

Module BibLog.
Import Re Bib.

(** The assignments [fields[field_key] = value] that the loop of
    [parse_fields] performs from cursor [i] on, in order. *)
Fixpoint assignments (fuel : nat) (fields_text : str) (i : nat)
    : list (str * str) :=
  match fuel with
  | 0 => []
  | S fuel' =>
      if i <? length fields_text then
        match field_turn fields_text i with
        | Some (Assign field_key value i') =>
            (field_key, value) :: assignments fuel' fields_text i'
        | _ => []
        end
      else []
  end.

Definition record_field (fields : gmap str str) (kv : str * str) : gmap str str :=
  <[kv.1 := kv.2]> fields.

(** The assignments of [parse_fields] on an entry. *)
Definition field_log (entry_text : str) : list (str * str) :=
  match search KEY_RE entry_text with
  | None => []
  | Some key_match =>
      match Str.find entry_text "," (m_end key_match) with
      | None => []
      | Some body_start =>
          let fields_text := field_list_text entry_text body_start in
          assignments (S (length fields_text)) fields_text 0
      end
  end.

(** The value of the last assignment to [name] in a log. *)
Fixpoint last_value (name : str) (log : list (str * str)) : option str :=
  match log with
  | [] => None
  | (k, v) :: log' =>
      match last_value name log' with
      | Some v' => Some v'
      | None => if Str.eqb k name then Some v else None
      end
  end.

(** The spans [(start, end)] of the entries that the loop of
    [extract_entries] appends from cursor [idx] on, in order. *)
Fixpoint spans_loop (fuel : nat) (text : str) (idx : nat)
    : option (list (nat * nat)) :=
  match fuel with
  | 0 => None
  | S fuel' =>
      match next_entry text idx with
      | None => Some []
      | Some (start, end_) =>
          spans ← spans_loop fuel' text end_;
          Some ((start, end_) :: spans)
      end
  end.

Definition span_text (text : str) (se : nat * nat) : str :=
  Str.slice text se.1 se.2.

(** The brace depth after [s], from depth 0: opening minus closing braces. *)
Fixpoint depth_of (s : str) : Z :=
  match s with
  | [] => 0
  | c :: s' =>
      (if Char.eqb c "{" then 1 else if Char.eqb c "}" then -1 else 0)
      + depth_of s'
  end.

(** The depth of [b] is 0 at its end and positive at every earlier point
    after its first character. *)
Definition depth_returns_at_end (b : str) : Prop :=
  depth_of b = 0%Z ∧ ∀ j, 0 < j < length b → (0 < depth_of (take j b))%Z.

(** An entry: [@], word characters, optional whitespace, then from the
    first [{] a brace-balanced text that ends with the [}] where the depth
    first returns to 0. *)
Definition entry_shape (entry : str) : Prop :=
  ∃ w ws body,
    entry = "@"%char :: w ++ ws ++ "{"%char :: body
    ∧ w ≠ []
    ∧ Forall (λ c, Char.is_word c = true) w
    ∧ Forall (λ c, Char.is_space c = true) ws
    ∧ last entry = Some "}"%char
    ∧ depth_returns_at_end ("{"%char :: body).

(** A value has balanced braces: no closing brace without an opening one
    before it, and every opening brace closed. *)
Fixpoint balanced_from (depth : Z) (s : str) : bool :=
  match s with
  | [] => (depth =? 0)%Z
  | c :: s' =>
      if Char.eqb c "{" then balanced_from (depth + 1) s'
      else if Char.eqb c "}" then (0 <? depth)%Z && balanced_from (depth - 1) s'
      else balanced_from depth s'
  end.

Definition balanced (value : str) : bool := balanced_from 0 value.

(** Re-serializing fields as [name = {value}] pairs, in the layout that
    [append_bib_entry] of [add_arxiv_paper.py] writes. *)
Definition field_pair (field : str * str) : str :=
  field.1 ++ " = {" ++ field.2 ++ "}".

Definition field_text (field : str * str) : str := "  " ++ field_pair field.

Definition serialize_entry (key : str) (fields : list (str * str)) : str :=
  "@misc{" ++ key ++ py ",\n" ++ Str.join (py ",\n") (map field_text fields)
  ++ py "\n}".

(** What holds of every field that the parser records: the name is not
    empty, trimmed, lower-cased and without [=], and the value is trimmed. *)
Definition field_ok (kv : str * str) : Prop :=
  kv.1 ≠ []
  ∧ match kv.1 with c :: _ => Char.is_space c = false | [] => True end
  ∧ Str.rstrip kv.1 = kv.1
  ∧ Str.lower kv.1 = kv.1
  ∧ Forall (λ c, Char.eqb c "=" = false) kv.1
  ∧ Str.strip kv.2 = kv.2.

(** What a field needs for its text [name = {value}] to be read back: the
    value has balanced braces and the name does not begin with a comma. *)
Definition field_rereadable (kv : str * str) : Prop :=
  balanced kv.2 = true ∧ head kv.1 ≠ Some ","%char.

(** A citation key that [KEY_RE] reads back whole. *)
Definition valid_key (key : str) : Prop :=
  key ≠ [] ∧ Forall (λ c, Char.eqb "," c || Char.is_space c = false) key.

(** The specification's reading of a quoted value: the text up to the next
    double quote that is not escaped by a backslash. *)
Fixpoint until_unescaped_quote (s : str) : str :=
  match s with
  | [] => []
  | c :: s' =>
      if Char.eqb c dquote then []
      else if Char.eqb c "\" then
        match s' with
        | e :: s'' => c :: e :: until_unescaped_quote s''
        | [] => [c]
        end
      else c :: until_unescaped_quote s'
  end.

End BibLog.

(** ** The other functions of the two scripts *)

(** *** More [str] and [re] operations *)

Module StrMore.

(** [s.split(sep)] for a non-empty [sep]: the occurrences are found left
    to right and do not overlap.  [skip] counts the characters of an
    occurrence that are still to be passed over, [cur] is the piece being
    read. *)
Fixpoint split_from (sep s : str) (skip : nat) (cur : str) : list str :=
  match s with
  | [] => [cur]
  | c :: s' =>
      match skip with
      | S n => split_from sep s' n cur
      | 0 =>
          if Str.startswith s sep
          then cur :: split_from sep s' (length sep - 1) []
          else split_from sep s' 0 (cur ++ [c])
      end
  end.

Definition split (s sep : str) : list str := split_from sep s 0 [].

(** [s.split()]: the maximal runs of characters that are not whitespace. *)
Definition split_ws (s : str) : list str := Header.words s.

(** [s.lstrip(chars)] *)
Definition lstrip_chars (chars s : str) : str :=
  Str.lstrip_by (λ c, Str.mem c chars) s.

(** [x or y] on strings, and the truth value of [d.get(k)]. *)
Definition or_str (x y : str) : str := if Str.nonempty x then x else y.
Definition truthy (o : option str) : bool :=
  match o with Some s => Str.nonempty s | None => false end.

End StrMore.

Module ReMore.
Import Re.

(** A pattern that is a sequence of literal characters. *)
Fixpoint lit (s : string) : regex :=
  match s with
  | EmptyString => Eps
  | String c s' => Cat (Cls (Char.eqb c)) (lit s')
  end.

(** [re.split(pattern, s)] for a pattern without groups that matches no
    empty string. *)
Fixpoint split_from (r : regex) (pos : nat) (rest : str) (skip : nat) (cur : str)
    : list str :=
  match rest with
  | [] => [cur]
  | c :: rest' =>
      match skip with
      | S n => split_from r (S pos) rest' n cur
      | 0 =>
          match match_at r pos rest with
          | Some m =>
              if m_end m <=? pos
              then split_from r (S pos) rest' 0 (cur ++ [c])
              else cur :: split_from r (S pos) rest' (m_end m - pos - 1) []
          | None => split_from r (S pos) rest' 0 (cur ++ [c])
          end
      end
  end.

Definition split (r : regex) (s : str) : list str := split_from r 0 s 0 [].

End ReMore.

(** *** [textwrap.dedent] of the standard library

    The library removes the lines of spaces and tabs, takes the longest
    common prefix of the leading spaces and tabs of the other non-empty
    lines as the margin, and removes the margin from the start of every
    line that has it.  Lines are separated by [\n] only. *)

Module Textwrap.

Definition is_blank_char (c : ascii) : bool := Str.mem c (py " \t").

Definition whitespace_only (l : str) : bool :=
  Str.nonempty l && forallb is_blank_char l.

Fixpoint leading (l : str) : str :=
  match l with
  | c :: l' => if is_blank_char c then c :: leading l' else []
  | [] => []
  end.

(** The indentation of a line that holds a character other than a space
    or a tab. *)
Definition indent_of (l : str) : option str :=
  match drop (length (leading l)) l with
  | [] => None
  | _ => Some (leading l)
  end.

Fixpoint common (margin indent : str) : str :=
  match margin, indent with
  | x :: margin', y :: indent' =>
      if Char.eqb x y then x :: common margin' indent' else []
  | _, _ => []
  end.

Definition fold_margin (margin : option str) (indent : str) : option str :=
  match margin with
  | None => Some indent
  | Some m =>
      if Str.startswith indent m then Some m
      else if Str.startswith m indent then Some indent
      else Some (common m indent)
  end.

Definition remove_margin (margin l : str) : str :=
  if Str.startswith l margin then drop (length margin) l else l.

Definition dedent (text : str) : str :=
  let lines :=
    map (λ l, if whitespace_only l then [] else l)
        (StrMore.split text (py "\n")) in
  let margin := foldl fold_margin None (omap indent_of lines) in
  match margin with
  | Some (c :: m) => Str.join (py "\n") (map (remove_margin (c :: m)) lines)
  | _ => Str.join (py "\n") lines
  end.

End Textwrap.

(** *** [scripts/add_arxiv_paper.py]: identifiers, categories, catalog
    entries *)

Module ArxivCli.
Import Re ReMore.

(** [ARXIV_ABS_RE], [arxiv\.org/abs/([\w.\-]+)], and [ARXIV_PDF_RE],
    [arxiv\.org/pdf/([\w.\-]+)\.pdf]. *)
Definition id_char : ascii → bool := either Char.is_word (one_of ".-").
Definition ARXIV_ABS_RE : regex :=
  (lit "arxiv.org/abs/" · Group 1 (plus id_char))%re.
Definition ARXIV_PDF_RE : regex :=
  (lit "arxiv.org/pdf/" · Group 1 (plus id_char) · lit ".pdf")%re.

Definition normalize_arxiv_id (url_or_id : str) : option str :=
  match or_else (search ARXIV_ABS_RE url_or_id) (search ARXIV_PDF_RE url_or_id) with
  | Some match_ => group url_or_id match_ 1
  | None => Some (Str.replace (Str.strip url_or_id) ".pdf" [])
  end.

Definition arxiv_pdf_url (arxiv_id : str) : str :=
  "https://arxiv.org/pdf/" ++ arxiv_id ++ ".pdf".

Definition arxiv_abs_url (arxiv_id : str) : str :=
  "https://arxiv.org/abs/" ++ arxiv_id.

(** [CATEGORY_FILES]; [os.path.join] with the separator [/]. *)
Definition CATEGORY_FILES : gmap str str :=
  dict [ ("forecasting", "database/km_forecasting_models.yaml");
         ("downscaling", "database/km_downscaling_and_generative.yaml");
         ("global", "database/global_drivers_priors.yaml") ].

Definition downscaling_terms : list str :=
  [ "downscaling" : str; "super-resolution" : str; "super resolution" : str;
    "diffusion" : str; "generative" : str ].
Definition forecasting_terms : list str :=
  [ "limited-area" : str; "limited area" : str; "lam " : str; "regional" : str;
    "stretched-grid" : str; "stretched grid" : str ].
Definition global_terms : list str :=
  [ "global" : str; "medium-range" : str; "medium range" : str ].

Definition any_in (terms : list str) (lower : str) : bool :=
  existsb (λ term, Str.contains term lower) terms.

(** [None] is the [RuntimeError] at the end of the function. *)
Definition infer_category (text : str) : option str :=
  let lower := Str.lower text in
  if any_in forecasting_terms lower then Some ("forecasting" : str)
  else if any_in downscaling_terms lower then Some ("downscaling" : str)
  else if any_in global_terms lower then Some ("global" : str)
  else None.

(** [\s+], [[^a-z0-9]+] and [[^a-z0-9\\s]+]; the last one is a raw string
    literal in which [\\] is an escaped backslash, so its class is the
    complement of the lower-case letters, the digits and the backslash. *)
Definition az09 : ascii → bool := either (Char.between 97 122) Char.is_digit.
Definition spaces_re : regex := plus Char.is_space.
Definition not_az09_re : regex := plus (none_of az09).
Definition not_title_char_re : regex :=
  plus (none_of (either az09 (either (Char.eqb "\") (Char.eqb "s")))).

Definition stop_words : list str :=
  [ "a" : str; "an" : str; "the" : str; "for" : str; "and" : str ].

(** [generate_id] on the dictionary that [extract_basic_metadata] returns;
    [None] stands for an [IndexError]. *)
Definition generate_id (metadata : Arxiv.metadata) : option str :=
  let author_field := Arxiv.author metadata in
  first_author ←
    (if Str.nonempty author_field
     then head (StrMore.split author_field " and ")
     else Some ("unknown" : str));
  last_name ← last (ReMore.split spaces_re (Str.strip first_author));
  let last_name := Str.lower last_name in
  let last_name := sub not_az09_re [] last_name in
  let year := StrMore.or_str (Arxiv.year metadata) "0000" in
  let title := Str.lower (Arxiv.title metadata) in
  let title := sub not_title_char_re [] title in
  let title_words :=
    List.filter (λ word, negb (existsb (Str.eqb word) stop_words))
      (StrMore.split_ws title) in
  let slug :=
    if bool_decide (title_words = []) then ("paper" : str)
    else Str.join "_" (take 3 title_words) in
  let slug := StrMore.or_str (Str.strip_chars "_" (take 40 slug)) "paper" in
  Some (last_name ++ year ++ "_" ++ slug).

(** The f-string of [append_bib_entry], before [textwrap.dedent]. *)
Definition bib_template (key : str) (metadata : Arxiv.metadata) (arxiv_id : str)
    : str :=
  py "\n        @misc{" ++ key
  ++ py ",\n          title        = {" ++ Arxiv.title metadata
  ++ py "},\n          author       = {" ++ Arxiv.author metadata
  ++ py "},\n          year         = {" ++ Arxiv.year metadata
  ++ py "},\n          eprint       = {" ++ arxiv_id
  ++ py "},\n          archivePrefix= {arXiv},\n          primaryClass = {"
  ++ Arxiv.primary_class metadata
  ++ py "},\n          url          = {" ++ arxiv_abs_url arxiv_id
  ++ py "}\n        }\n        ".

Definition bib_entry (key : str) (metadata : Arxiv.metadata) (arxiv_id : str)
    : str :=
  StrMore.lstrip_chars (py "\n") (Textwrap.dedent (bib_template key metadata arxiv_id)).

(** A catalog file is its content, or [None] when the path does not
    exist; opening it with mode ["a"] creates it. *)
Definition bib_entry_exists (file : option str) (key : str) : bool :=
  match file with
  | None => false
  | Some content => Str.contains ("@misc{" ++ key ++ ",") content
  end.

Definition append_bib_entry (file : option str) (key : str)
    (metadata : Arxiv.metadata) (arxiv_id : str) : option str :=
  Some (default [] file ++ py "\n" ++ bib_entry key metadata arxiv_id).

Definition yaml_template (key : str) : str :=
  py "\n          - id: " ++ key
  ++ py "\n            domain:\n              scope: \q\q\n            architecture:\n              family: \q\q\n              notes: \q\q\n            outputs:\n              probabilistic: false\n              ensembles: false\n            tags: []\n        ".

Definition yaml_skeleton (key : str) : str :=
  Str.rstrip (Textwrap.dedent (yaml_template key)).

Definition yaml_entry_exists (file : option str) (key : str) : bool :=
  match file with
  | None => false
  | Some content => Str.contains ("- id: " ++ key) content
  end.

Definition append_yaml_entry (file : option str) (key : str) : option str :=
  Some (default [] file ++ py "\n" ++ yaml_skeleton key ++ py "\n").

End ArxivCli.

(** *** [scripts/download_pdfs.py]: the PDF address of an entry *)

Module BibUrl.
Import StrMore.

(** [derive_pdf_url]: [Some None] is the result [None] of Python, [None]
    an [IndexError]. *)
Definition derive_pdf_url (fields : gmap str str) : option (option str) :=
  if bool_decide (fields = ∅) then Some None else
  let pdf_url :=
    if truthy (fields !! ("pdf" : str)) then fields !! ("pdf" : str)
    else fields !! ("file" : str) in
  if truthy pdf_url
     && Str.endswith (Str.lower (default [] pdf_url)) ".pdf"
  then Some pdf_url else
  let url := default [] (fields !! ("url" : str)) in
  if Str.endswith url ".pdf" then Some (Some url) else
  if Str.contains "arxiv.org/abs/" url then
    arxiv_id ← last (split url "arxiv.org/abs/");
    Some (Some ("https://arxiv.org/pdf/" ++ arxiv_id ++ ".pdf"))
  else
  let eprint := fields !! ("eprint" : str) in
  let archive_prefix := Str.lower (default [] (fields !! ("archiveprefix" : str))) in
  if truthy eprint && Str.eqb archive_prefix "arxiv"
  then Some (Some ("https://arxiv.org/pdf/" ++ default [] eprint ++ ".pdf"))
  else Some None.

(** The list [parsed] of [main]: the entries that have a key. *)
Fixpoint parsed_loop (entries : list str) (parsed : list (str * gmap str str))
    : option (list (str * gmap str str)) :=
  match entries with
  | [] => Some parsed
  | entry :: entries' =>
      '(key, fields) ← Bib.parse_fields entry;
      if truthy key
      then parsed_loop entries' (parsed ++ [(default [] key, fields)])
      else parsed_loop entries' parsed
  end.

Definition parsed_entries (text : str) : option (list (str * gmap str str)) :=
  entries ← Bib.extract_entries text;
  parsed_loop entries [].

End BibUrl.

(** *** Notions used to state the properties of the other functions *)

Module HeaderMore.
Import Header.

(** The trimmed content of the last banner line among [lines], or
    [arxiv_line] when there is none. *)
Definition last_banner (arxiv_line : str) (lines : list str) : str :=
  foldl (λ a l, if is_banner l then Str.strip l else a) arxiv_line lines.

Definition no_linebreak (line : str) : Prop :=
  Forall (λ c, Char.is_linebreak c = false) line.

End HeaderMore.
(** * Properties *)

(** ** The matcher *)

Section matcher_facts.
Import Re.

(** A successful quantifier on a class consumed [n] characters of the
    class, within its bounds, and then the rest of the pattern matched. *)
Lemma rep_inv greedy p lo hi pos rest cs k x :
  rep greedy p lo hi pos rest cs k = Some x →
  ∃ n, k (pos + n) (drop n rest) cs = Some x
       ∧ n ≤ length rest ∧ lo ≤ n
       ∧ (∀ h, hi = Some h → n ≤ h)
       ∧ Forall (λ c, p c = true) (take n rest).
Proof.
  revert lo hi pos.
  induction rest as [|c rest IH]; intros lo hi pos H; simpl in H.
  - destruct (lo =? 0) eqn:Hlo; [|done].
    apply Nat.eqb_eq in Hlo. exists 0.
    rewrite Nat.add_0_r. simpl. repeat split; auto with lia.
  - assert (Hstop : (if lo =? 0 then k pos (c :: rest) cs else None) = Some x →
                    ∃ n, k (pos + n) (drop n (c :: rest)) cs = Some x
                         ∧ n ≤ length (c :: rest) ∧ lo ≤ n
                         ∧ (∀ h, hi = Some h → n ≤ h)
                         ∧ Forall (λ c, p c = true) (take n (c :: rest))).
    { intros Hs. destruct (lo =? 0) eqn:Hlo; [|done].
      apply Nat.eqb_eq in Hlo. exists 0.
      rewrite Nat.add_0_r. simpl. repeat split; auto with lia. }
    assert (Hmore : p c = true → hi_allows hi = true →
              rep greedy p (pred lo) (hi_pred hi) (S pos) rest cs k = Some x →
              ∃ n, k (pos + n) (drop n (c :: rest)) cs = Some x
                   ∧ n ≤ length (c :: rest) ∧ lo ≤ n
                   ∧ (∀ h, hi = Some h → n ≤ h)
                   ∧ Forall (λ c, p c = true) (take n (c :: rest))).
    { intros Hp Hhi Hr. apply IH in Hr as (n & Hk & Hn & Hl & Hh & Hall).
      exists (S n). replace (pos + S n) with (S pos + n) by lia. simpl.
      repeat split; auto with lia.
      intros h ->. destruct h as [|h]; [done|].
      specialize (Hh h eq_refl). lia. }
    destruct (p c) eqn:Hp; simpl in H; [|by apply Hstop].
    destruct (hi_allows hi) eqn:Hhi; [|by apply Hstop].
    destruct greedy; unfold or_else in H.
    + destruct (rep true p (pred lo) (hi_pred hi) (S pos) rest cs k) eqn:Hr.
      * inversion H; subst. by apply Hmore.
      * by apply Hstop.
    + destruct (if lo =? 0 then k pos (c :: rest) cs else None) eqn:Hs.
      * inversion H; subst. by apply Hstop.
      * by apply Hmore.
Qed.

(** A greedy unbounded quantifier takes a whole run of the class when the
    run is followed by a character outside the class or by the end of the
    subject, and the rest of the pattern matches there. *)
Lemma rep_greedy_max p lo pos w rest cs k x :
  Forall (λ c, p c = true) w →
  match rest with [] => True | c :: _ => p c = false end →
  lo ≤ length w →
  k (pos + length w) rest cs = Some x →
  rep true p lo None pos (w ++ rest) cs k = Some x.
Proof.
  revert lo pos. induction w as [|c w IH]; intros lo pos Hall Hend Hlo Hk; simpl in *.
  - rewrite Nat.add_0_r in Hk. assert (lo = 0) as -> by lia.
    destruct rest as [|c rest]; simpl; [done|].
    rewrite Hend. simpl. done.
  - inversion Hall as [|? ? Hc Hw]; subst. rewrite Hc. simpl.
    rewrite (IH (pred lo) (S pos)); auto with lia.
    replace (S pos + length w) with (pos + S (length w)) by lia. done.
Qed.

Lemma search_in_inv r pos rest m :
  search_in r pos rest = Some m →
  ∃ n, n ≤ length rest
       ∧ match_at r (pos + n) (drop n rest) = Some m
       ∧ ∀ j, j < n → match_at r (pos + j) (drop j rest) = None.
Proof.
  revert pos. induction rest as [|c rest IH]; intros pos H; simpl in H.
  - destruct (match_at r pos []) eqn:Hm; [|done].
    exists 0. rewrite Nat.add_0_r. simpl. split; [lia|]. split; [congruence|lia].
  - destruct (match_at r pos (c :: rest)) eqn:Hm.
    + exists 0. rewrite Nat.add_0_r. simpl. split; [lia|]. split; [congruence|lia].
    + apply IH in H as (n & Hn & Hat & Hleft). exists (S n).
      replace (pos + S n) with (S pos + n) by lia. simpl.
      split; [lia|]. split; [done|].
      intros [|j] Hj; simpl.
      * by rewrite Nat.add_0_r.
      * replace (pos + S j) with (S pos + j) by lia. apply Hleft. lia.
Qed.

Lemma match_at_start r pos rest m :
  match_at r pos rest = Some m → m_start m = pos.
Proof.
  unfold match_at. destruct (run r pos rest [] finish) as [[e cs]|]; [|done].
  by intros [= <-].
Qed.

End matcher_facts.

(** ** Characters and strings *)

Section string_facts.

Lemma char_eqb_eq a b : Char.eqb a b = true ↔ a = b.
Proof.
  unfold Char.eqb, Char.code. rewrite N.eqb_eq. split; [|by intros ->].
  intros H. rewrite <- (ascii_N_embedding a), <- (ascii_N_embedding b).
  by rewrite H.
Qed.

Lemma char_eqb_refl a : Char.eqb a a = true.
Proof. by apply char_eqb_eq. Qed.

Lemma char_eqb_neq a b : Char.eqb a b = false ↔ a ≠ b.
Proof.
  rewrite <- char_eqb_eq. destruct (Char.eqb a b); split; congruence.
Qed.

Lemma rstrip_by_nil p s : Str.rstrip_by p s = [] → Forall (λ c, p c = true) s.
Proof.
  induction s as [|c s IH]; cbn [Str.rstrip_by]; [done|].
  destruct (Str.rstrip_by p s) eqn:E; [|done].
  destruct (p c) eqn:Hc; [|done]. intros _. constructor; auto.
Qed.

Lemma rstrip_by_all p s : Forall (λ c, p c = true) s → Str.rstrip_by p s = [].
Proof.
  induction 1 as [|c s Hc _ IH]; cbn [Str.rstrip_by]; [done|].
  by rewrite IH, Hc.
Qed.

Lemma lstrip_by_head p s :
  match Str.lstrip_by p s with [] => True | c :: _ => p c = false end.
Proof.
  induction s as [|c s IH]; cbn [Str.lstrip_by]; [done|].
  destruct (p c) eqn:Hc; [done|]. exact Hc.
Qed.

Lemma lstrip_by_keep p s :
  match s with [] => True | c :: _ => p c = false end →
  Str.lstrip_by p s = s.
Proof. destruct s as [|c s]; [done|]. cbn [Str.lstrip_by]. by intros ->. Qed.

Lemma rstrip_by_cons_keep p c s :
  p c = false → Str.rstrip_by p (c :: s) = c :: Str.rstrip_by p s.
Proof. intros Hc. cbn [Str.rstrip_by]. rewrite Hc. by destruct (Str.rstrip_by p s). Qed.

Lemma rstrip_by_idem p s :
  Str.rstrip_by p (Str.rstrip_by p s) = Str.rstrip_by p s.
Proof.
  induction s as [|c s IH]; [done|]. cbn [Str.rstrip_by].
  destruct (Str.rstrip_by p s) as [|a t] eqn:E.
  - destruct (p c) eqn:Hc; [done|]. cbn [Str.rstrip_by]. by rewrite Hc.
  - change (Str.rstrip_by p (c :: a :: t)) with
      (match Str.rstrip_by p (a :: t) with
       | [] => if p c then [] else [c]
       | t' => c :: t'
       end).
    by rewrite IH.
Qed.

Lemma rstrip_by_snoc_drop p s c :
  p c = true → Str.rstrip_by p (s ++ [c]) = Str.rstrip_by p s.
Proof.
  intros Hc. induction s as [|x s IH]; cbn [app Str.rstrip_by].
  - by rewrite Hc.
  - by rewrite IH.
Qed.

Lemma rstrip_by_snoc_keep p s c :
  p c = false → Str.rstrip_by p (s ++ [c]) = s ++ [c].
Proof.
  intros Hc. induction s as [|x s IH]; cbn [app Str.rstrip_by].
  - by rewrite Hc.
  - rewrite IH. by destruct s.
Qed.

Lemma strip_by_idem p s : Str.strip_by p (Str.strip_by p s) = Str.strip_by p s.
Proof.
  unfold Str.strip_by.
  pose proof (lstrip_by_head p s) as Hhead.
  destruct (Str.lstrip_by p s) as [|c t]; [done|].
  rewrite rstrip_by_cons_keep by done.
  rewrite lstrip_by_keep by done.
  rewrite <- rstrip_by_cons_keep by done. apply rstrip_by_idem.
Qed.

(** A trimmed string is empty or starts with a character that is kept, and
    trimming its right end changes nothing. *)
Lemma strip_by_shape p s :
  match Str.strip_by p s with [] => True | c :: _ => p c = false end
  ∧ Str.rstrip_by p (Str.strip_by p s) = Str.strip_by p s.
Proof.
  unfold Str.strip_by. split; [|apply rstrip_by_idem].
  pose proof (lstrip_by_head p s) as Hhead.
  destruct (Str.lstrip_by p s) as [|c t]; [done|].
  by rewrite rstrip_by_cons_keep.
Qed.

Lemma strip_by_keep p s :
  match s with [] => True | c :: _ => p c = false end →
  Str.rstrip_by p s = s →
  Str.strip_by p s = s.
Proof. intros Hh Hr. unfold Str.strip_by. by rewrite lstrip_by_keep. Qed.

Lemma rstrip_by_none p s :
  Forall (λ c, p c = false) s → Str.rstrip_by p s = s.
Proof.
  induction 1 as [|c s Hc _ IH]; [done|].
  by rewrite rstrip_by_cons_keep, IH.
Qed.

Lemma char_lower_idem c : Char.lower (Char.lower c) = Char.lower c.
Proof. destruct c as [[] [] [] [] [] [] [] []]; reflexivity. Qed.

Lemma char_lower_space c : Char.is_space (Char.lower c) = Char.is_space c.
Proof. destruct c as [[] [] [] [] [] [] [] []]; reflexivity. Qed.

Lemma char_lower_eq_sign c : Char.eqb (Char.lower c) "=" = Char.eqb c "=".
Proof. destruct c as [[] [] [] [] [] [] [] []]; reflexivity. Qed.

Lemma lower_idem s : Str.lower (Str.lower s) = Str.lower s.
Proof.
  unfold Str.lower. rewrite map_map. apply map_ext, char_lower_idem.
Qed.

Lemma lower_rstrip s :
  Str.rstrip_by Char.is_space (Str.lower s)
  = Str.lower (Str.rstrip_by Char.is_space s).
Proof.
  induction s as [|c s IH]; [done|].
  change (Str.lower (c :: s)) with (Char.lower c :: Str.lower s).
  cbn [Str.rstrip_by]. rewrite IH, char_lower_space.
  destruct (Str.rstrip_by Char.is_space s); [|done].
  by destruct (Char.is_space c).
Qed.

Lemma endswith_snoc (s : str) c : Str.endswith (s ++ [c]) [c] = true.
Proof.
  unfold Str.endswith. rewrite rev_app_distr.
  change (rev [c]) with [c]. cbn [app Str.startswith]. rewrite char_eqb_refl.
  by destruct (rev s).
Qed.

End string_facts.

Section words.
Import Header.

Lemma words_from_space s cur :
  Forall (λ c, Char.is_space c = true) s → words_from s cur = flush cur.
Proof.
  intros H. revert cur. induction H as [|c s Hc _ IH]; intros cur;
    cbn [words_from]; [done|].
  rewrite Hc, IH. cbn [flush]. by rewrite app_nil_r.
Qed.

Lemma words_from_app a sp b cur :
  Char.is_space sp = true →
  words_from (a ++ sp :: b) cur = words_from a cur ++ words_from b [].
Proof.
  intros Hsp. revert cur. induction a as [|c a IH]; intros cur;
    cbn [app words_from].
  - by rewrite Hsp.
  - destruct (Char.is_space c); [|apply IH].
    rewrite IH. by rewrite app_assoc.
Qed.

Lemma words_lstrip s : words (Str.lstrip_by Char.is_space s) = words s.
Proof.
  unfold words. induction s as [|c s IH]; cbn [Str.lstrip_by words_from]; [done|].
  destruct (Char.is_space c) eqn:Hc; [|cbn [words_from]; by rewrite Hc].
  by rewrite IH.
Qed.

Lemma words_from_rstrip s cur :
  words_from (Str.rstrip_by Char.is_space s) cur = words_from s cur.
Proof.
  revert cur. induction s as [|c s IH]; intros cur; cbn [Str.rstrip_by]; [done|].
  destruct (Str.rstrip_by Char.is_space s) as [|a t] eqn:E.
  - apply rstrip_by_nil in E.
    destruct (Char.is_space c) eqn:Hc; cbn [words_from]; rewrite Hc.
    + rewrite words_from_space by done. cbn [flush]. by rewrite app_nil_r.
    + cbn [words_from]. by rewrite words_from_space.
  - cbn [words_from]. destruct (Char.is_space c); by rewrite <- IH.
Qed.

Lemma words_strip s : words (Str.strip s) = words s.
Proof.
  unfold Str.strip, Str.strip_by, words.
  rewrite words_from_rstrip. apply words_lstrip.
Qed.

Lemma words_from_replace s cur :
  words_from (Str.replace s "  " " ") cur = words_from s cur.
Proof.
  unfold Str.replace. remember (length s) as n eqn:Hn.
  revert s cur Hn. induction (lt_wf n) as [n _ IH]; intros s cur Hn.
  destruct s as [|c s]; [done|].
  cbn [Str.replace_from].
  destruct (Str.startswith (c :: s) "  ") eqn:Hsw.
  - cbn in Hsw. destruct s as [|c' s]; [by rewrite andb_false_r in Hsw|].
    apply andb_prop in Hsw as [Hc Hc']. cbn in Hc'.
    apply andb_prop in Hc' as [Hc' _].
    apply char_eqb_eq in Hc, Hc'. subst c c'.
    cbn [Str.replace_from list_ascii_of_string length Nat.sub app words_from].
    replace (Char.is_space " ") with true by done.
    cbn [flush app]. f_equal.
    eapply IH; [|done]. simpl in Hn. lia.
  - cbn [words_from]. simpl in Hn.
    destruct (Char.is_space c); [f_equal|]; (eapply IH; [|done]; lia).
Qed.

Lemma words_join_space parts :
  words (Str.join " " parts) = concat (map words parts).
Proof.
  induction parts as [|p parts IH]; [done|].
  destruct parts as [|q parts].
  - cbn [Str.join map concat]. by rewrite app_nil_r.
  - change (Str.join " " (p :: q :: parts))
      with (p ++ " "%char :: Str.join " " (q :: parts)).
    unfold words at 1. rewrite words_from_app by done.
    fold (words p). fold (words (Str.join " " (q :: parts))).
    by rewrite IH.
Qed.

Lemma words_join_strip parts :
  words (Str.join " " (map Str.strip parts)) = words (Str.join " " parts).
Proof.
  rewrite !words_join_space. f_equal.
  rewrite map_map. apply map_ext. intros p. apply words_strip.
Qed.

End words.

(** ** The front-matter extractor *)

Section extractor_total.
Import Re Arxiv.

Lemma author_loop_total remaining_lines lines idx author_lines :
  is_Some (author_loop remaining_lines lines idx author_lines).
Proof.
  revert idx author_lines.
  induction lines as [|line lines IH]; intros idx author_lines; simpl; [by eexists|].
  destruct (idx + 1 <? length remaining_lines) eqn:Hlt; simpl.
  - apply Nat.ltb_lt in Hlt.
    destruct (lookup_lt_is_Some_2 remaining_lines (idx + 1) Hlt) as [l ->]. simpl.
    repeat case_match; apply IH.
  - repeat case_match; apply IH.
Qed.

(** Whenever [\[(.+?)\]] matches, its group 1 took part in the match. *)
Lemma class_pattern_group s m :
  search class_pattern s = Some m → is_Some (group s m 1).
Proof.
  unfold search. intros H.
  apply search_in_inv in H as (n & _ & H & _).
  unfold match_at in H.
  destruct (run class_pattern (0 + n) (drop n s) [] finish) as [[e cs]|] eqn:Hrun;
    [|done].
  injection H as <-. unfold group. simpl.
  unfold class_pattern in Hrun. simpl in Hrun.
  destruct (drop n s) as [|c rest]; [done|].
  destruct (Char.eqb "[" c); [|done].
  apply rep_inv in Hrun as (k & Hk & _).
  destruct (drop k rest) as [|c' rest']; [done|].
  destruct (Char.eqb "]" c'); [|done].
  injection Hk as <- <-. simpl. by eexists.
Qed.

End extractor_total.

Lemma extract_returns (text : str) :
  ∃ title author year primary_class : str,
    Arxiv.extract_basic_metadata text
    = Some (Arxiv.Metadata title author year primary_class).
Proof.
  unfold Arxiv.extract_basic_metadata.
  destruct (Arxiv.header_loop _ _ _) as [header_lines arxiv_line].
  destruct (Arxiv.title_loop _ _ _ _ _) as [title_lines title_end_index].
  destruct (author_loop_total (drop (title_end_index + 1) header_lines)
              (drop (title_end_index + 1) header_lines) 0 []) as [author_lines ->].
  simpl.
  destruct (Str.nonempty arxiv_line); simpl; [|by repeat eexists].
  destruct (Re.search Arxiv.class_pattern arxiv_line) as [class_match|] eqn:Hc; simpl.
  - destruct (class_pattern_group _ _ Hc) as [g ->]. simpl. by repeat eexists.
  - by repeat eexists.
Qed.

(** C4: [extract_basic_metadata] returns normally on every string, the
    empty one included, and what it returns is a record of four strings
    (an absent value is the empty string). *)
Theorem extract_basic_metadata_total :
  (∀ text : str, ∃ title author year primary_class : str,
      Arxiv.extract_basic_metadata text
      = Some (Arxiv.Metadata title author year primary_class))
  ∧ Arxiv.extract_basic_metadata [] = Some (Arxiv.Metadata [] [] [] []).
Proof. split; [exact extract_returns|by vm_compute]. Qed.

Section title.
Import Arxiv Header.

Lemma header_loop_window lines acc arxiv_line :
  (header_loop lines acc arxiv_line).1 = acc ++ take_until is_abstract lines.
Proof.
  revert acc arxiv_line.
  induction lines as [|line lines IH]; intros acc arxiv_line;
    cbn [header_loop take_until fst].
  - by rewrite app_nil_r.
  - fold (is_abstract line).
    destruct (is_abstract line); cbn [fst].
    + by rewrite app_nil_r.
    + rewrite IH. by rewrite <- app_assoc.
Qed.

Lemma title_loop_block lines idx acc started tei :
  (title_loop lines idx acc started tei).1 = acc ++ title_block started lines.
Proof.
  revert idx acc started tei.
  induction lines as [|line lines IH]; intros idx acc started tei;
    cbn [title_loop title_block fst].
  - by rewrite app_nil_r.
  - fold (is_banner line). unfold is_blank.
    destruct (is_banner line); [apply IH|].
    destruct started; cbn [negb].
    + destruct (Str.nonempty (Str.strip line)); cbn [negb fst].
      * rewrite IH. by rewrite <- app_assoc.
      * by rewrite app_nil_r.
    + destruct (Str.nonempty (Str.strip line)); cbn [negb].
      * rewrite IH. by rewrite <- app_assoc.
      * apply IH.
Qed.

Lemma title_block_skip pre lines :
  forallb (λ l, is_blank l || is_banner l) pre = true →
  title_block false (pre ++ lines) = title_block false lines.
Proof.
  induction pre as [|l pre IH]; simpl; [done|].
  intros [Hl Hpre]%andb_prop.
  destruct (is_banner l); [by apply IH|].
  rewrite orb_false_r in Hl. rewrite Hl. by apply IH.
Qed.

Lemma title_block_run mid line rest :
  forallb (λ l, negb (is_blank l)) mid = true →
  is_blank line = true →
  title_block true (mid ++ line :: rest)
  = map Str.strip (List.filter not_banner mid).
Proof.
  intros Hmid Hline. induction mid as [|l mid IH]; simpl.
  - destruct (is_banner line) eqn:Hb.
    + unfold is_banner, is_blank in *.
      destruct (Str.strip line); [by vm_compute in Hb | by simpl in Hline].
    + by rewrite Hline.
  - simpl in Hmid. apply andb_prop in Hmid as [Hl Hmid].
    unfold not_banner at 1. destruct (is_banner l); simpl; [by apply IH|].
    apply negb_true_iff in Hl. rewrite Hl. f_equal. by apply IH.
Qed.

Lemma title_block_none lines :
  forallb (λ l, is_blank l || is_banner l) lines = true →
  title_block false lines = [].
Proof.
  intros H. rewrite <- (app_nil_r lines). by rewrite title_block_skip.
Qed.

Lemma window_split lines a b :
  first_title_line lines a = true →
  first_blank_after lines a b = true →
  ∃ first blank rest,
    lines = take a lines ++ first :: lines_between lines (S a) b ++ blank :: rest
    ∧ lines_between lines a b = first :: lines_between lines (S a) b
    ∧ is_blank first = false ∧ is_banner first = false
    ∧ is_blank blank = true.
Proof.
  unfold first_title_line, first_blank_after.
  intros [_ Ha]%andb_prop [[Hab _]%andb_prop Hb]%andb_prop.
  apply Nat.ltb_lt in Hab.
  destruct (lines !! a) as [first|] eqn:Hfirst; [|done].
  destruct (lines !! b) as [blank|] eqn:Hblank; [|done].
  apply andb_prop in Ha as [Ha1 Ha2].
  apply negb_true_iff in Ha1, Ha2.
  exists first, blank, (drop (S b) lines).
  assert (Hdrop : drop a lines = first :: drop (S a) lines)
    by (by apply drop_S).
  assert (Hdropb : drop (S a) lines
                   = lines_between lines (S a) b ++ blank :: drop (S b) lines).
  { unfold lines_between.
    rewrite <- (take_drop (b - S a) (drop (S a) lines)) at 1.
    f_equal. rewrite drop_drop.
    replace (S a + (b - S a)) with b by lia. by apply drop_S. }
  split; [|split; [|done]].
  - rewrite <- Hdropb, <- Hdrop. by rewrite take_drop.
  - unfold lines_between. rewrite Hdrop.
    replace (b - a) with (S (b - S a)) by lia. done.
Qed.

End title.

Section title_theorem.
Import Arxiv Header.

Lemma extract_title text :
  ∃ r, extract_basic_metadata text = Some r
       ∧ title r
         = Str.strip (Str.replace (Str.join " " (title_block false (window text)))
                        "  " " ").
Proof.
  destruct (extract_returns text) as (t & au & y & pc & Hr).
  eexists. split; [exact Hr|].
  unfold extract_basic_metadata in Hr.
  pose proof (header_loop_window
                (take 80 (map Str.rstrip (Str.splitlines text))) [] []) as Hw.
  destruct (header_loop _ _ _) as [header_lines arxiv_line].
  cbn [fst app] in Hw. fold (window text) in Hw. subst header_lines.
  pose proof (title_loop_block (window text) 0 [] false 0) as Ht.
  destruct (title_loop _ _ _ _ _) as [title_lines title_end_index].
  cbn [fst app] in Ht. subst title_lines.
  destruct (author_loop _ _ _ _); [|done]. cbn [mbind option_bind] in Hr.
  destruct (if Str.nonempty arxiv_line then _ else _) as [[? ?]|]; [|done].
  cbn in Hr. by injection Hr as <- _ _ _.
Qed.

Lemma ws_equal_title parts :
  ws_equal (Str.strip (Str.replace (Str.join " " (map Str.strip parts)) "  " " "))
           (Str.join " " parts).
Proof.
  unfold ws_equal. rewrite words_strip. unfold words at 1.
  rewrite words_from_replace. apply words_join_strip.
Qed.

End title_theorem.

(** C8, as the code has it: when the header window has a first line [a]
    that is neither blank nor a banner and a first blank line [b] after it,
    the title is the concatenation of the lines [a] to [b - 1] of the window
    that are not banners, joined with single spaces, modulo whitespace
    normalization: it has the same words, and it is that concatenation with
    every line trimmed, each doubled space replaced by one and the result
    trimmed.  Banner lines inside the range are skipped.  When every line of
    the window is blank or a banner, the title is empty. *)
Theorem title_is_title_block (text : str) :
  ∃ r, Arxiv.extract_basic_metadata text = Some r
  ∧ (∀ a b,
       Header.first_title_line (Header.window text) a = true →
       Header.first_blank_after (Header.window text) a b = true →
       let block :=
         List.filter Header.not_banner
           (Header.lines_between (Header.window text) a b) in
       Header.ws_equal (Arxiv.title r) (Str.join " " block)
       ∧ Arxiv.title r
         = Str.strip (Str.replace (Str.join " " (map Str.strip block)) "  " " "))
  ∧ (forallb (λ l, Header.is_blank l || Header.is_banner l) (Header.window text)
     = true →
     Arxiv.title r = []).
Proof.
  destruct (extract_title text) as (r & Hr & Ht).
  exists r. split; [done|]. split.
  - intros a b Ha Hb block.
    assert (Hblock : Header.title_block false (Header.window text)
                     = map Str.strip block).
    { destruct (window_split _ _ _ Ha Hb)
        as (first & blank & rest & Hsplit & Hbetween & Hf1 & Hf2 & Hbl).
      subst block. rewrite Hbetween. rewrite Hsplit at 1.
      rewrite title_block_skip.
      2:{ unfold Header.first_title_line in Ha.
          by apply andb_prop in Ha as [Ha _]. }
      cbn [Header.title_block List.filter]. unfold Header.not_banner at 1.
      rewrite Hf1, Hf2. cbn [negb map]. f_equal.
      apply title_block_run; [|done].
      unfold Header.first_blank_after in Hb.
      by apply andb_prop in Hb as [[_ Hb]%andb_prop _]. }
    rewrite Ht, Hblock. split; [apply ws_equal_title|done].
  - intros Hall. rewrite Ht. by rewrite title_block_none.
Qed.

Lemma title_is_title_block_witness :
  let text := py "arXiv:2507.18378v1 [cs.LG] 3 Jul 2025\n\nForecasting with\n Stretched  Grids \n\nJane A. Smith\nUniversity of Example\n\nAbstract\n..." in
  Header.first_title_line (Header.window text) 2 = true
  ∧ Header.first_blank_after (Header.window text) 2 4 = true
  ∧ ∃ r, Arxiv.extract_basic_metadata text = Some r
         ∧ Header.ws_equal (Arxiv.title r) "Forecasting with  Stretched  Grids "
         ∧ Arxiv.title r = "Forecasting with Stretched Grids".
Proof.
  intros text.
  assert (Ha : Header.first_title_line (Header.window text) 2 = true)
    by (vm_compute; reflexivity).
  assert (Hb : Header.first_blank_after (Header.window text) 2 4 = true)
    by (vm_compute; reflexivity).
  split; [exact Ha|]. split; [exact Hb|].
  destruct (title_is_title_block text) as (r & Hr & Hblock & _).
  exists r. split; [exact Hr|].
  destruct (Hblock 2 4 Ha Hb) as [Hws Heq].
  split.
  - unfold Header.ws_equal in *. rewrite Hws. vm_compute. reflexivity.
  - rewrite Heq. vm_compute. reflexivity.
Defined.

(** C8 as it is stated fails when a banner line lies inside the title
    block: the scan skips the banner, the stated concatenation keeps it. *)
Lemma title_banner_inside_block :
  let text := py "Kilometre Scale\narXiv:2507.18378v1 [cs.LG] 3 Jul 2025\nForecasting\n\nJane A. Smith\nUniversity of Example\n\nAbstract\n..." in
  Header.first_title_line (Header.window text) 0 = true
  ∧ Header.first_blank_after (Header.window text) 0 3 = true
  ∧ Header.lines_between (Header.window text) 0 3
    = [ "Kilometre Scale" : str; "arXiv:2507.18378v1 [cs.LG] 3 Jul 2025" : str;
        "Forecasting" : str ]
  ∧ ∃ r, Arxiv.extract_basic_metadata text = Some r
         ∧ Arxiv.title r = "Kilometre Scale Forecasting"
         ∧ ¬ Header.ws_equal (Arxiv.title r)
               (Str.join " " (Header.lines_between (Header.window text) 0 3)).
Proof.
  intros text.
  split; [by vm_compute|]. split; [by vm_compute|]. split; [by vm_compute|].
  eexists. split; [by vm_compute|]. split; [by vm_compute|].
  unfold Header.ws_equal. vm_compute. discriminate.
Qed.

(** C1: the example of the specification.  The year is the first 4-digit
    substring of the banner line that begins with 19 or 20: it stands at
    index 33, and no earlier index starts one. *)
Theorem extract_example :
  Arxiv.extract_basic_metadata
    (py "arXiv:2507.18378v1 [cs.LG] 3 Jul 2025\nForecasting with Stretched Grids\n\nJane A. Smith\nUniversity of Example\n\nAbstract\n...")
  = Some (Arxiv.Metadata "Forecasting with Stretched Grids" "Jane A. Smith"
            "2025" "cs.LG")
  ∧ let banner : str := "arXiv:2507.18378v1 [cs.LG] 3 Jul 2025" in
    Str.slice banner 33 37 = "2025"
    ∧ Header.is_year (Str.slice banner 33 37) = true
    ∧ forallb (λ q, negb (Header.is_year (Str.slice banner q (q + 4)))) (seq 0 33)
      = true.
Proof. vm_compute. repeat split; reflexivity. Qed.

Section name_pattern_facts.
Import Re Arxiv.

(** [name_pattern] as compiled matches only lines that hold a backslash. *)
Lemma name_pattern_needs_backslash (line : str) :
  is_Some (match_ name_pattern line) → "\"%char ∈ line.
Proof.
  unfold match_, match_at. intros [m Hm].
  destruct (run name_pattern 0 line [] finish) as [[e cs]|] eqn:Hrun; [|done].
  clear Hm. unfold name_pattern in Hrun. cbn [run chr plus Nat.eqb] in Hrun.
  destruct line as [|c rest]; [done|].
  destruct (upper_az c); [|done].
  apply rep_inv in Hrun as (n & Hrun & Hn & _).
  unfold or_else in Hrun. cbn [Nat.eqb Init.Nat.pred] in Hrun.
  destruct (drop n rest) as [|c' rest'] eqn:Hdrop; [done|].
  destruct (Char.eqb "\" c') eqn:Hc'; [|done].
  apply char_eqb_eq in Hc' as <-.
  right. rewrite <- (take_drop n rest), Hdrop.
  apply elem_of_app. right. left.
Qed.

End name_pattern_facts.

(** C2, evaluated on the code: the line [Jane Smith] of this header is not
    blank, does not look like an affiliation, has no comma and has the
    capitalized-name shape, and the line after it is blank; the extractor
    does not accept it, because [name_pattern] as compiled does not match
    it.  The pattern asks for a backslash and letters [s] between the
    names, and for name characters among backslash, [w], ['], [.] and [-]:
    it matches [Jw\sSw] (and, by [name_pattern_needs_backslash], no line
    without a backslash). *)
Theorem name_shape_line_not_accepted :
  let text := py "Title\n\nJane Smith\n\nAbstract" in
  let line : str := "Jane Smith" in
  Header.window text = [ "Title" : str; [] ; line; [] ]
  ∧ Header.is_blank line = false
  ∧ Arxiv.looks_like_affiliation line = false
  ∧ Str.contains "," line = false
  ∧ Header.name_shape line = true
  ∧ Re.match_ Arxiv.name_pattern line = None
  ∧ Arxiv.extract_basic_metadata text = Some (Arxiv.Metadata "Title" [] [] [])
  ∧ Re.match_ Arxiv.name_pattern (py "Jw\\sSw") = Some (Re.Match 0 6 []).
Proof. vm_compute. repeat split; reflexivity. Qed.

(** ** [extract_entries] *)

Section entries.
Import Re Bib BibLog.

Lemma entry_start_inv pos rest m :
  match_at ENTRY_START_RE pos rest = Some m →
  ∃ w ws rest',
    rest = "@"%char :: w ++ ws ++ "{"%char :: rest'
    ∧ w ≠ []
    ∧ Forall (λ c, Char.is_word c = true) w
    ∧ Forall (λ c, Char.is_space c = true) ws
    ∧ m_start m = pos
    ∧ m_end m = pos + 1 + length w + length ws + 1.
Proof.
  unfold match_at.
  destruct (run ENTRY_START_RE pos rest [] finish) as [[e cs]|] eqn:Hrun; [|done].
  intros [= <-]. cbn [m_start m_end].
  unfold ENTRY_START_RE in Hrun. cbn [run chr plus star] in Hrun.
  destruct rest as [|c rest]; [done|].
  destruct (Char.eqb "@" c) eqn:Hc; [|done]. apply char_eqb_eq in Hc as <-.
  apply rep_inv in Hrun as (n & Hrun & Hn & Hlo & _ & Hw).
  apply rep_inv in Hrun as (n' & Hrun & Hn' & _ & _ & Hws).
  destruct (drop n' (drop n rest)) as [|c' rest'] eqn:Hrest; [done|].
  destruct (Char.eqb "{" c') eqn:Hc'; [|done]. apply char_eqb_eq in Hc' as <-.
  injection Hrun as <- _.
  exists (take n rest), (take n' (drop n rest)), rest'.
  rewrite <- Hrest, !take_drop.
  rewrite !length_take, length_drop. rewrite length_drop in Hn'.
  split; [done|]. split.
  { destruct rest; [simpl in Hn; lia|]. destruct n; [lia|]. done. }
  repeat split; auto with lia.
Qed.

Lemma depth_of_open s : depth_of ("{"%char :: s) = (1 + depth_of s)%Z.
Proof. done. Qed.

Lemma depth_of_close s : depth_of ("}"%char :: s) = (-1 + depth_of s)%Z.
Proof. done. Qed.

Lemma depth_of_nil : depth_of [] = 0%Z.
Proof. done. Qed.

Lemma find_in_here c rest i : Str.find_in c (c :: rest) i = Some i.
Proof. cbn [Str.find_in]. by rewrite char_eqb_refl. Qed.

Lemma depth_scan_gt rest pos d e : depth_scan rest pos d = Some e → pos < e.
Proof.
  revert pos d. induction rest as [|c rest IH]; intros pos d; cbn [depth_scan]; [done|].
  destruct (Char.eqb c "{"); [intros H%IH; lia|].
  destruct (Char.eqb c "}"); [|intros H%IH; lia].
  destruct (d - 1 =? 0)%Z; [intros [= <-]; lia|intros H%IH; lia].
Qed.

(** Where the scan of [extract_entries] stops: at the first closing brace
    that brings the depth to 0, the depth being positive before. *)
Lemma depth_scan_inv rest pos d e :
  (1 ≤ d)%Z →
  depth_scan rest pos d = Some e →
  ∃ n, e = pos + n ∧ 1 ≤ n ≤ length rest
       ∧ rest !! (n - 1) = Some "}"%char
       ∧ (d + depth_of (take n rest) = 0)%Z
       ∧ ∀ j, j < n → (1 ≤ d + depth_of (take j rest))%Z.
Proof.
  revert pos d. induction rest as [|c rest IH]; intros pos d Hd; cbn [depth_scan]; [done|].
  assert (Hstep : ∀ d', (1 ≤ d')%Z →
            (d' = d + (if Char.eqb c "{" then 1 else if Char.eqb c "}" then -1 else 0))%Z →
            depth_scan rest (S pos) d' = Some e →
            ∃ n, e = pos + n ∧ 1 ≤ n ≤ length (c :: rest)
                 ∧ (c :: rest) !! (n - 1) = Some "}"%char
                 ∧ (d + depth_of (take n (c :: rest)) = 0)%Z
                 ∧ ∀ j, j < n → (1 ≤ d + depth_of (take j (c :: rest)))%Z).
  { intros d' Hd' Hdd H. apply IH in H as (n & -> & Hn & Hlast & Hzero & Hpos); [|done].
    exists (S n). split; [lia|]. split; [simpl; lia|].
    split.
    { destruct n as [|n]; [lia|].
      replace (S (S n) - 1) with (S n) by lia.
      by replace (S n - 1) with n in Hlast by lia. }
    split; [cbn [firstn depth_of]; lia|].
    intros [|j] Hj; [cbn [firstn depth_of]; lia|].
    cbn [firstn depth_of]. specialize (Hpos j). lia. }
  destruct (Char.eqb c "{") eqn:Hopen.
  { apply Hstep; lia. }
  destruct (Char.eqb c "}") eqn:Hclose; [|apply Hstep; lia].
  destruct (d - 1 =? 0)%Z eqn:Hz.
  - apply Z.eqb_eq in Hz. intros [= <-]. exists 1.
    apply char_eqb_eq in Hclose as ->.
    split; [lia|]. split; [simpl; lia|]. split; [done|].
    cbn [firstn]. rewrite take_0, depth_of_close, depth_of_nil.
    split; [lia|].
    intros j Hj. assert (j = 0) as -> by lia. rewrite take_0.
    rewrite depth_of_nil. lia.
  - apply Z.eqb_neq in Hz. apply Hstep; lia.
Qed.

Lemma depth_returns_at_end_scan rest' pos e :
  depth_scan ("{"%char :: rest') pos 0 = Some e →
  ∃ n, e = pos + S n ∧ n ≤ length rest'
       ∧ last (take (S n) ("{"%char :: rest')) = Some "}"%char
       ∧ depth_returns_at_end (take (S n) ("{"%char :: rest')).
Proof.
  cbn [depth_scan]. replace (Char.eqb "{" "{") with true by done.
  intros H. apply depth_scan_inv in H as (n & -> & Hn & Hlast & Hzero & Hpos); [|done].
  exists n. split; [lia|]. split; [lia|]. split; [|split].
  - rewrite last_lookup. rewrite length_take. cbn [length].
    replace (Init.Nat.pred (S n `min` S (length rest'))) with n by lia.
    rewrite lookup_take_lt by lia.
    destruct n as [|n]; [lia|]. change (rest' !! n = Some "}"%char).
    by replace (S n - 1) with n in Hlast by lia.
  - cbn [firstn]. rewrite depth_of_open. lia.
  - intros j Hj. rewrite length_take in Hj. cbn [length] in Hj.
    rewrite take_take. replace (j `min` S n) with j by lia.
    destruct j as [|j]; [lia|].
    cbn [firstn]. rewrite depth_of_open.
    specialize (Hpos j). lia.
Qed.

Lemma search_from_inv r text idx m :
  search_from r text idx = Some m →
  ∃ n, idx + n ≤ length text
       ∧ match_at r (idx + n) (drop (idx + n) text) = Some m
       ∧ ∀ j, j < n → match_at r (idx + j) (drop (idx + j) text) = None.
Proof.
  unfold search_from. destruct (idx <=? length text) eqn:Hle; [|done].
  apply Nat.leb_le in Hle.
  intros (n & Hn & Hat & Hleft)%search_in_inv.
  rewrite length_drop in Hn. exists n. split; [lia|].
  rewrite drop_drop in Hat. split; [done|].
  intros j Hj. specialize (Hleft j Hj). by rewrite drop_drop in Hleft.
Qed.

Lemma next_entry_inv text idx s e :
  next_entry text idx = Some (s, e) →
  ∃ m w ws rest' n,
    search_from ENTRY_START_RE text idx = Some m
    ∧ m_start m = s
    ∧ idx ≤ s
    ∧ drop s text = "@"%char :: w ++ ws ++ "{"%char :: rest'
    ∧ w ≠ []
    ∧ Forall (λ c, Char.is_word c = true) w
    ∧ Forall (λ c, Char.is_space c = true) ws
    ∧ m_end m = s + 1 + length w + length ws + 1
    ∧ drop (m_end m - 1) text = "{"%char :: rest'
    ∧ depth_scan ("{"%char :: rest') (m_end m - 1) 0 = Some e
    ∧ e = m_end m + n
    ∧ n ≤ length rest'
    ∧ last (take (S n) ("{"%char :: rest')) = Some "}"%char
    ∧ depth_returns_at_end (take (S n) ("{"%char :: rest')).
Proof.
  unfold next_entry.
  destruct (search_from ENTRY_START_RE text idx) as [m|] eqn:Hsearch; [|done].
  destruct (search_from_inv _ _ _ _ Hsearch) as (k & Hk & Hat & _).
  destruct (entry_start_inv _ _ _ Hat) as (w & ws & rest' & Hdrop & Hw0 & Hw & Hws & Hst & Hend).
  assert (Hbrace : drop (m_end m - 1) text = "{"%char :: rest').
  { replace (m_end m - 1) with ((idx + k) + (1 + length w + length ws)) by lia.
    rewrite <- drop_drop, Hdrop.
    change ("@"%char :: w ++ ws ++ "{"%char :: rest')
      with (["@"%char] ++ w ++ ws ++ "{"%char :: rest').
    rewrite !app_assoc. rewrite drop_app_length'; [done|].
    rewrite !length_app. simpl. lia. }
  unfold Str.find. rewrite Hbrace, find_in_here. rewrite Hbrace.
  destruct (depth_scan ("{"%char :: rest') (m_end m - 1) 0) as [e'|] eqn:Hscan; [|done].
  intros [= <- <-].
  destruct (depth_returns_at_end_scan _ _ _ Hscan) as (n & He & Hn & Hlast & Hdepth).
  exists m, w, ws, rest', n.
  rewrite Hst. repeat split; auto with lia; apply Hdepth.
Qed.

Lemma next_entry_shape text idx s e :
  next_entry text idx = Some (s, e) →
  idx ≤ s ∧ s < e ∧ e ≤ length text ∧ entry_shape (Str.slice text s e).
Proof.
  intros (m & w & ws & rest' & n & _ & _ & Hidx & Hdrop & Hw0 & Hw & Hws
          & Hend & _ & _ & He & Hn & Hlast & Hdepth)%next_entry_inv.
  assert (Hlen : length text = s + (1 + length w + length ws + 1 + length rest')).
  { pose proof (f_equal length Hdrop) as Hl. rewrite length_drop in Hl.
    cbn [length] in Hl. rewrite !length_app in Hl. cbn [length] in Hl. lia. }
  split; [done|]. split; [lia|]. split; [lia|].
  exists w, ws, (take n rest').
  assert (Hslice : Str.slice text s e
                   = "@"%char :: w ++ ws ++ take (S n) ("{"%char :: rest')).
  { unfold Str.slice. rewrite Hdrop.
    replace (e - s) with (S (length w + (length ws + S n))) by lia.
    cbn [firstn]. f_equal.
    rewrite take_app_add'; [|done]. f_equal.
    rewrite take_app_add'; [|done]. done. }
  split; [by rewrite Hslice|]. split; [done|]. split; [done|]. split; [done|].
  split; [|done].
  rewrite Hslice.
  change ("@"%char :: w ++ ws ++ take (S n) ("{"%char :: rest'))
    with (["@"%char] ++ w ++ ws ++ "{"%char :: take n rest').
  rewrite !last_app. cbn [firstn] in Hlast. by rewrite Hlast.
Qed.

Lemma entries_loop_spans fuel text idx entries :
  entries_loop fuel text idx entries
  = (λ spans, entries ++ map (span_text text) spans) <$> spans_loop fuel text idx.
Proof.
  revert idx entries. induction fuel as [|fuel IH]; intros idx entries;
    cbn [entries_loop spans_loop]; [done|].
  destruct (next_entry text idx) as [[s e]|]; cbn.
  - rewrite IH. destruct (spans_loop fuel text e) as [spans|]; cbn; [|done].
    by rewrite <- app_assoc.
  - by rewrite app_nil_r.
Qed.

Lemma spans_loop_total fuel text idx :
  length text - idx < fuel → is_Some (spans_loop fuel text idx).
Proof.
  revert idx. induction fuel as [|fuel IH]; intros idx Hfuel; [lia|].
  cbn [spans_loop].
  destruct (next_entry text idx) as [[s e]|] eqn:Hnext; [|by eexists].
  apply next_entry_shape in Hnext as (Hs & He & Hlen & _).
  destruct (IH e) as [spans ->]; [lia|]. by eexists.
Qed.

Lemma spans_loop_props fuel text idx spans :
  spans_loop fuel text idx = Some spans →
  Forall (λ se, idx ≤ se.1 ∧ se.1 < se.2 ∧ se.2 ≤ length text
                ∧ entry_shape (span_text text se)) spans
  ∧ ∀ i j a b, i < j → spans !! i = Some a → spans !! j = Some b → a.2 ≤ b.1.
Proof.
  revert idx spans. induction fuel as [|fuel IH]; intros idx spans; [done|].
  cbn [spans_loop].
  destruct (next_entry text idx) as [[s e]|] eqn:Hnext.
  - destruct (spans_loop fuel text e) as [spans'|] eqn:Hloop; [|done].
    cbn. intros [= <-].
    apply next_entry_shape in Hnext as (Hs & He & Hlen & Hshape).
    destruct (IH _ _ Hloop) as [Hall Hsorted].
    split.
    + constructor; [done|].
      eapply Forall_impl; [exact Hall|]. cbn. intros [a b]; cbn. intuition lia.
    + intros [|i] [|j] a b Hij Ha Hb; try lia.
      * cbn in Ha, Hb. injection Ha as <-. cbn.
        rewrite Forall_lookup in Hall. specialize (Hall _ _ Hb). cbn in Hall. lia.
      * cbn in Ha, Hb. eapply (Hsorted i j); [lia|done|done].
  - intros [= <-]. split; [constructor|]. intros i j a b _ Ha. done.
Qed.

Lemma depth_scan_mono rest pos d d' e :
  (1 ≤ d')%Z → (d' ≤ d)%Z →
  depth_scan rest pos d = Some e → is_Some (depth_scan rest pos d').
Proof.
  revert pos d d'. induction rest as [|c rest IH]; intros pos d d' Hd' Hd;
    cbn [depth_scan]; [done|].
  destruct (Char.eqb c "{"); [apply IH; lia|].
  destruct (Char.eqb c "}"); [|apply IH; lia].
  destruct (d' - 1 =? 0)%Z eqn:Hz'; [by eexists|].
  apply Z.eqb_neq in Hz'.
  destruct (d - 1 =? 0)%Z eqn:Hz; [apply Z.eqb_eq in Hz; lia|].
  apply IH; lia.
Qed.

Lemma depth_scan_split u rest pos d e :
  (1 ≤ d)%Z →
  depth_scan (u ++ rest) pos d = Some e →
  pos + length u < e →
  ∃ d2, (1 ≤ d2)%Z ∧ depth_scan rest (pos + length u) d2 = Some e.
Proof.
  revert pos d. induction u as [|c u IH]; intros pos d Hd; cbn [app length depth_scan].
  - rewrite Nat.add_0_r. eauto.
  - replace (pos + S (length u)) with (S pos + length u) by lia.
    destruct (Char.eqb c "{"); [apply IH; lia|].
    destruct (Char.eqb c "}"); [|apply IH; lia].
    destruct (d - 1 =? 0)%Z eqn:Hz; [intros [= <-]; lia|].
    apply Z.eqb_neq in Hz. apply IH; lia.
Qed.

(** Inside the head [@word{] of an entry, after the [@], there are only
    word characters, whitespace and the opening brace. *)
Lemma head_lookup w ws rest' j c :
  Forall (λ c, Char.is_word c = true) w →
  Forall (λ c, Char.is_space c = true) ws →
  0 < j ≤ 1 + length w + length ws →
  ("@"%char :: w ++ ws ++ "{"%char :: rest') !! j = Some c →
  Char.is_word c = true ∨ Char.is_space c = true ∨ c = "{"%char.
Proof.
  intros Hw Hws Hj. destruct j as [|j]; [lia|].
  change ((w ++ ws ++ "{"%char :: rest') !! j = Some c
          → Char.is_word c = true ∨ Char.is_space c = true ∨ c = "{"%char).
  rewrite lookup_app. destruct (w !! j) as [x|] eqn:Hx.
  - intros [= <-]. left. rewrite Forall_lookup in Hw. by eapply Hw.
  - apply lookup_ge_None in Hx. rewrite lookup_app.
    destruct (ws !! (j - length w)) as [y|] eqn:Hy.
    + intros [= <-]. right; left. rewrite Forall_lookup in Hws. by eapply Hws.
    + apply lookup_ge_None in Hy.
      replace (j - length w - length ws) with 0 by lia.
      intros [= <-]. by right; right.
Qed.

(** An entry that starts before an unclosed head [@word{] ends before it. *)
Lemma entry_before_unclosed text idx a b s m :
  next_entry text idx = Some (a, b) →
  a < s → s ≤ length text →
  match_at ENTRY_START_RE s (drop s text) = Some m →
  depth_scan (drop (m_end m - 1) text) (m_end m - 1) 0 = None →
  b ≤ s.
Proof.
  intros (m' & w & ws & rest' & n & _ & _ & _ & Hdrop & _ & Hw & Hws
          & Hend' & Hbrace' & Hscan' & _)%next_entry_inv Has Hs Hat Hnone.
  destruct (entry_start_inv _ _ _ Hat)
    as (w2 & ws2 & rest2 & Hdrop2 & _ & Hw2 & Hws2 & _ & Hend).
  destruct (decide (b ≤ s)) as [|Hsb]; [done|]. exfalso.
  set (a' := m_end m' - 1) in *. set (p := m_end m - 1) in *.
  assert (Hat_s : text !! s = Some "@"%char).
  { replace s with (s + 0) by lia. rewrite <- lookup_drop. by rewrite Hdrop2. }
  (* the unclosed head starts after the brace of the entry *)
  assert (Ha's : a' < s).
  { destruct (decide (a' < s)) as [|Hn]; [done|]. exfalso.
    assert (Hc : (drop a text) !! (s - a) = Some "@"%char).
    { rewrite lookup_drop. by replace (a + (s - a)) with s by lia. }
    rewrite Hdrop in Hc. apply head_lookup in Hc; [|done|done|lia].
    destruct Hc as [Hc|[Hc|Hc]]; by vm_compute in Hc. }
  (* the last character of the entry is a closing brace *)
  cbn [depth_scan] in Hscan'. replace (Char.eqb "{" "{") with true in Hscan' by done.
  pose proof Hscan' as Hinv.
  apply depth_scan_inv in Hinv as (n0 & Hb & Hn0 & Hlast & _); [|lia].
  assert (Hrest' : rest' = drop (S a') text).
  { change (S a') with (1 + a'). rewrite Nat.add_comm, <- drop_drop, Hbrace'. done. }
  assert (Hclose : text !! (b - 1) = Some "}"%char).
  { rewrite Hrest', lookup_drop in Hlast.
    by replace (S a' + (n0 - 1)) with (b - 1) in Hlast by lia. }
  (* the brace of the unclosed head lies strictly inside the entry *)
  assert (Hpb : p + 1 < b).
  { destruct (decide (p + 1 < b)) as [|Hn]; [done|]. exfalso.
    assert (s ≠ b - 1) by (intros ->; congruence).
    assert (Hc : (drop s text) !! (b - 1 - s) = Some "}"%char).
    { rewrite lookup_drop. by replace (s + (b - 1 - s)) with (b - 1) by lia. }
    rewrite Hdrop2 in Hc. apply head_lookup in Hc; [|done|done|lia].
    destruct Hc as [Hc|[Hc|Hc]]; by vm_compute in Hc. }
  assert (Hbrace : drop p text = "{"%char :: rest2).
  { replace p with (s + (1 + length w2 + length ws2)) by lia.
    rewrite <- drop_drop, Hdrop2.
    change ("@"%char :: w2 ++ ws2 ++ "{"%char :: rest2)
      with (["@"%char] ++ w2 ++ ws2 ++ "{"%char :: rest2).
    rewrite !app_assoc. rewrite drop_app_length'; [done|].
    rewrite !length_app. simpl. lia. }
  rewrite <- (take_drop (p - S a') rest') in Hscan'.
  apply depth_scan_split in Hscan' as (d2 & Hd2 & Hscan'); [|lia|].
  2:{ rewrite length_take. rewrite Hrest', length_drop.
      assert (p < length text).
      { apply lookup_lt_is_Some. rewrite <- (Nat.add_0_r p), <- lookup_drop, Hbrace.
        by eexists. }
      lia. }
  assert (Hlen : S a' + length (take (p - S a') rest') = p).
  { rewrite length_take, Hrest', length_drop.
    assert (p < length text).
    { apply lookup_lt_is_Some. rewrite <- (Nat.add_0_r p), <- lookup_drop, Hbrace.
      by eexists. }
    lia. }
  rewrite Hlen in Hscan'.
  assert (Hr2 : drop (p - S a') rest' = "{"%char :: rest2).
  { rewrite Hrest', drop_drop. by replace (S a' + (p - S a')) with p by lia. }
  rewrite Hr2 in Hscan'. cbn [depth_scan] in Hscan'.
  replace (Char.eqb "{" "{") with true in Hscan' by done.
  rewrite Hbrace in Hnone. cbn [depth_scan] in Hnone.
  replace (Char.eqb "{" "{") with true in Hnone by done.
  apply (depth_scan_mono _ _ _ (0 + 1)%Z) in Hscan' as [e' He']; [|lia|lia].
  congruence.
Qed.

Lemma spans_before_unclosed fuel text idx spans s m :
  idx ≤ s → s ≤ length text →
  match_at ENTRY_START_RE s (drop s text) = Some m →
  depth_scan (drop (m_end m - 1) text) (m_end m - 1) 0 = None →
  spans_loop fuel text idx = Some spans →
  Forall (λ se, se.2 ≤ s) spans.
Proof.
  intros Hidx Hs Hat Hnone. revert idx spans Hidx.
  induction fuel as [|fuel IH]; intros idx spans Hidx; [done|].
  cbn [spans_loop].
  destruct (next_entry text idx) as [[a b]|] eqn:Hnext; [|by intros [= <-]].
  destruct (spans_loop fuel text b) as [spans'|] eqn:Hloop; [|done].
  cbn. intros [= <-].
  assert (Hb : b ≤ s).
  { pose proof Hnext as (m' & w & ws & rest' & n & Hsearch & Hstart & _ & _ & _ & _
                          & _ & _ & Hbrace' & Hscan' & _)%next_entry_inv.
    destruct (search_from_inv _ _ _ _ Hsearch) as (k & _ & Hat' & Hleft).
    pose proof (match_at_start _ _ _ _ Hat') as Hk. rewrite Hstart in Hk.
    destruct (decide (s < a)) as [Hsa|Hsa].
    { specialize (Hleft (s - idx) ltac:(lia)).
      replace (idx + (s - idx)) with s in Hleft by lia. congruence. }
    destruct (decide (a = s)) as [->|Hne].
    { rewrite <- Hk in Hat'. assert (m' = m) as Hm by congruence.
      rewrite Hm in Hbrace', Hscan'. rewrite Hbrace' in Hnone. congruence. }
    eapply entry_before_unclosed; [exact Hnext|lia|done|exact Hat|exact Hnone]. }
  constructor; [done|]. by apply (IH b).
Qed.

End entries.

(** C10: [extract_entries] returns, and every string it returns is a slice
    [text[start:end]] of the input that starts with [@], word characters,
    optional whitespace and [{], ends with [}], and whose depth, counted
    from its first [{], first returns to 0 at its last character; the
    slices are in the order of their start positions and do not overlap. *)
Theorem extract_entries_shape (text : str) :
  ∃ entries spans,
    Bib.extract_entries text = Some entries
    ∧ entries = map (λ se, Str.slice text se.1 se.2) spans
    ∧ Forall (λ se, se.1 < se.2 ∧ se.2 ≤ length text
                    ∧ BibLog.entry_shape (Str.slice text se.1 se.2)) spans
    ∧ ∀ i j a b, i < j → spans !! i = Some a → spans !! j = Some b → a.2 ≤ b.1.
Proof.
  unfold Bib.extract_entries. rewrite entries_loop_spans.
  destruct (spans_loop_total (S (length text)) text 0) as [spans Hspans]; [lia|].
  rewrite Hspans. exists (map (BibLog.span_text text) spans), spans.
  split; [done|]. split; [done|].
  destruct (spans_loop_props _ _ _ _ Hspans) as [Hall Hsorted].
  split; [|done].
  eapply Forall_impl; [exact Hall|]. intros se. unfold BibLog.span_text. tauto.
Qed.


(** C7: (1) a turn of the loop of [extract_entries] whose search finds a
    head [@word{] for which no opening brace is found, or from whose brace
    the depth never returns to 0 before the end of the text, leaves the
    loop with the entries collected so far: nothing is appended for it.
    (2) When the text has such an unclosed head at position [s], every
    entry that [extract_entries] returns ends at or before [s]: neither the
    unclosed entry nor anything after it is in the output. *)
Theorem unclosed_entry_stops_scan (text : str) :
  (∀ idx fuel entries m,
     Re.search_from Bib.ENTRY_START_RE text idx = Some m →
     match Str.find text "{" (Re.m_end m - 1) with
     | None => True
     | Some brace_idx => Bib.depth_scan (drop brace_idx text) brace_idx 0 = None
     end →
     Bib.entries_loop (S fuel) text idx entries = Some entries)
  ∧ (∀ s m,
       s ≤ length text →
       Re.match_at Bib.ENTRY_START_RE s (drop s text) = Some m →
       Bib.depth_scan (drop (Re.m_end m - 1) text) (Re.m_end m - 1) 0 = None →
       ∃ entries spans,
         Bib.extract_entries text = Some entries
         ∧ entries = map (λ se, Str.slice text se.1 se.2) spans
         ∧ Forall (λ se, se.2 ≤ s) spans).
Proof.
  split.
  - intros idx fuel entries m Hsearch Hnone. cbn [Bib.entries_loop].
    unfold Bib.next_entry. rewrite Hsearch.
    destruct (Str.find text "{" (Re.m_end m - 1)) as [brace_idx|]; [|done].
    by rewrite Hnone.
  - intros s m Hs Hat Hnone.
    unfold Bib.extract_entries. rewrite entries_loop_spans.
    destruct (spans_loop_total (S (length text)) text 0) as [spans Hspans]; [lia|].
    rewrite Hspans. exists (map (BibLog.span_text text) spans), spans.
    split; [done|]. split; [done|].
    eapply spans_before_unclosed; [|exact Hs|exact Hat|exact Hnone|exact Hspans]. lia.
Qed.

Lemma unclosed_entry_stops_scan_witness :
  let text := py "@misc{a, t = {x}}\n@misc{b, t = {x}\n@misc{c, t = {y}}" in
  let m := Re.Match 18 24 [] in
  Re.search_from Bib.ENTRY_START_RE text 17 = Some m
  ∧ Str.find text "{" (Re.m_end m - 1) = Some 23
  ∧ Bib.depth_scan (drop 23 text) 23 0 = None
  ∧ Bib.entries_loop 1 text 17 [py "@misc{a, t = {x}}"]
    = Some [py "@misc{a, t = {x}}"]
  ∧ Re.match_at Bib.ENTRY_START_RE 18 (drop 18 text) = Some m
  ∧ Bib.extract_entries text = Some [py "@misc{a, t = {x}}"]
  ∧ ∃ entries spans,
      Bib.extract_entries text = Some entries
      ∧ entries = map (λ se, Str.slice text se.1 se.2) spans
      ∧ Forall (λ se, se.2 ≤ 18) spans.
Proof.
  intros text m.
  assert (H0 : Re.search_from Bib.ENTRY_START_RE text 17 = Some m)
    by (vm_compute; reflexivity).
  assert (Hf : Str.find text "{" (Re.m_end m - 1) = Some 23)
    by (vm_compute; reflexivity).
  assert (Hd : Bib.depth_scan (drop 23 text) 23 0 = None)
    by (vm_compute; reflexivity).
  assert (H1 : 18 ≤ length text) by (vm_compute; lia).
  assert (H2 : Re.match_at Bib.ENTRY_START_RE 18 (drop 18 text) = Some m)
    by (vm_compute; reflexivity).
  assert (H3 : Bib.depth_scan (drop (Re.m_end m - 1) text) (Re.m_end m - 1) 0 = None)
    by (vm_compute; reflexivity).
  destruct (unclosed_entry_stops_scan text) as [Hturn Hall].
  split; [exact H0|]. split; [exact Hf|]. split; [exact Hd|].
  split.
  { apply (Hturn 17 0 _ m H0). rewrite Hf. exact Hd. }
  split; [exact H2|]. split; [vm_compute; reflexivity|].
  exact (Hall 18 m H1 H2 H3).
Defined.

Lemma extract_entries_shape_witness :
  let text := py "% refs\n@misc{a, t = {x}}\n\n@book {b,\n y = {{Z} w}\n}\n" in
  ∃ entries spans,
    Bib.extract_entries text = Some entries
    ∧ entries = [py "@misc{a, t = {x}}"; py "@book {b,\n y = {{Z} w}\n}"]
    ∧ entries = map (λ se, Str.slice text se.1 se.2) spans
    ∧ Forall (λ se, BibLog.entry_shape (Str.slice text se.1 se.2)) spans
    ∧ ∀ a b, spans !! 0 = Some a → spans !! 1 = Some b → a.2 ≤ b.1.
Proof.
  intros text.
  destruct (extract_entries_shape text) as (entries & spans & He & Hmap & Hall & Hord).
  exists entries, spans. split; [exact He|].
  split.
  { assert (Hc : Bib.extract_entries text
                 = Some [py "@misc{a, t = {x}}"; py "@book {b,\n y = {{Z} w}\n}"])
      by (vm_compute; reflexivity).
    rewrite He in Hc. by injection Hc. }
  split; [exact Hmap|]. split.
  - eapply Forall_impl; [exact Hall|]. intros se H. apply H.
  - intros a b Ha Hb. apply (Hord 0 1 a b); [lia|exact Ha|exact Hb].
Defined.

(** ** [parse_fields] *)

Section field_scans.
Import Re Bib BibLog.

Lemma skip_while_bounds p rest i :
  i ≤ skip_while p rest i ∧ skip_while p rest i ≤ i + length rest.
Proof.
  revert i. induction rest as [|c rest IH]; intros i; cbn [skip_while length]; [lia|].
  destruct (p c); [|lia]. specialize (IH (S i)). lia.
Qed.

(** The loop passes a run of characters of the class and stops at the first
    character outside it, or at the end. *)
Lemma skip_while_run p w rest i :
  Forall (λ c, p c = true) w →
  match rest with [] => True | c :: _ => p c = false end →
  skip_while p (w ++ rest) i = i + length w.
Proof.
  intros Hw Hrest. revert i. induction Hw as [|c w Hc _ IH]; intros i;
    cbn [app length].
  - rewrite Nat.add_0_r. destruct rest as [|c rest]; [done|].
    cbn [skip_while]. by rewrite Hrest.
  - cbn [skip_while]. rewrite Hc, IH. lia.
Qed.

Lemma skip_in_bounds chars s i :
  i ≤ skip_in chars s i ∧ (i ≤ length s → skip_in chars s i ≤ length s).
Proof.
  unfold skip_in.
  pose proof (skip_while_bounds (λ c, Str.mem c chars) (drop i s) i) as H.
  rewrite length_drop in H. lia.
Qed.

Lemma skip_notin_bounds chars s i :
  i ≤ skip_notin chars s i ∧ (i ≤ length s → skip_notin chars s i ≤ length s).
Proof.
  unfold skip_notin.
  pose proof (skip_while_bounds (λ c, negb (Str.mem c chars)) (drop i s) i) as H.
  rewrite length_drop in H. lia.
Qed.

Lemma brace_loop_bounds rest i d :
  i ≤ brace_loop rest i d ∧ brace_loop rest i d ≤ i + length rest.
Proof.
  revert i d. induction rest as [|c rest IH]; intros i d; cbn [brace_loop length]; [lia|].
  destruct (0 <? d)%Z; [|lia].
  match goal with |- context [brace_loop rest (S i) ?d'] =>
    specialize (IH (S i) d') end. lia.
Qed.

Lemma advance_bounds rest i :
  i ≤ advance rest i ∧ advance rest i ≤ i + length rest.
Proof.
  revert i. induction rest as [|c rest IH]; intros i; cbn [advance length]; [lia|].
  destruct (Str.mem c (py "\n")); [lia|].
  destruct (Char.eqb c ","); [lia|]. specialize (IH (S i)). lia.
Qed.

(** A turn of the loop never raises, and a turn that records a field moves
    the cursor forward. *)
Lemma field_turn_total fields_text i :
  ∃ t, field_turn fields_text i = Some t
       ∧ match t with
         | Break => True
         | Assign field_key value i' => i < i' ∧ Str.lower field_key = field_key
         end.
Proof.
  unfold field_turn.
  pose proof (skip_in_bounds (py "\n\r\t ,") fields_text i) as [H1 _].
  set (i1 := skip_in (py "\n\r\t ,") fields_text i) in *.
  destruct (length fields_text <=? i1) eqn:Hl1; [by exists Break|].
  pose proof (skip_notin_bounds "=" fields_text i1) as [H2 _].
  set (i2 := skip_notin "=" fields_text i1) in *.
  set (field_key := Str.lower (Str.strip (Str.slice fields_text i1 i2))).
  destruct (Str.nonempty field_key); cbn [negb]; [|by exists Break].
  pose proof (skip_in_bounds (py " \t\n\r") fields_text (i2 + 1)) as [H3 _].
  set (i3 := skip_in (py " \t\n\r") fields_text (i2 + 1)) in *.
  destruct (length fields_text <=? i3) eqn:Hl3; [by exists Break|].
  apply Nat.leb_gt in Hl3.
  destruct (lookup_lt_is_Some_2 fields_text i3 Hl3) as [delimiter ->].
  cbn [mbind option_bind].
  assert (Hlower : Str.lower field_key = field_key).
  { unfold field_key, Str.lower. rewrite map_map. apply map_ext.
    intros c. destruct c as [[] [] [] [] [] [] [] []]; reflexivity. }
  unfold read_value.
  destruct (Str.mem delimiter (py "{\q")).
  - destruct (Char.eqb delimiter "{").
    + eexists. split; [reflexivity|]. split; [|done].
      pose proof (brace_loop_bounds (drop (i3 + 1) fields_text) (i3 + 1) 1) as [H4 _].
      match goal with |- context [advance ?r ?j] =>
        pose proof (advance_bounds r j) as [H5 _] end. lia.
    + eexists. split; [reflexivity|]. split; [|done].
      pose proof (skip_notin_bounds (py "\q") fields_text (i3 + 1)) as [H4 _].
      match goal with |- context [advance ?r ?j] =>
        pose proof (advance_bounds r j) as [H5 _] end. lia.
  - eexists. split; [reflexivity|]. split; [|done].
    pose proof (skip_notin_bounds (py ",\n") fields_text i3) as [H4 _].
    match goal with |- context [advance ?r ?j] =>
      pose proof (advance_bounds r j) as [H5 _] end. lia.
Qed.

Lemma fields_loop_log fuel fields_text i fields :
  length fields_text - i < fuel →
  fields_loop fuel fields_text i fields
  = Some (foldl record_field fields (assignments fuel fields_text i))
  ∧ Forall (λ kv, Str.lower kv.1 = kv.1) (assignments fuel fields_text i).
Proof.
  revert i fields. induction fuel as [|fuel IH]; intros i fields Hfuel; [lia|].
  cbn [fields_loop assignments].
  destruct (i <? length fields_text) eqn:Hi; [|done].
  apply Nat.ltb_lt in Hi.
  destruct (field_turn_total fields_text i) as ([|field_key value i'] & -> & Ht);
    cbn [mbind option_bind]; [done|].
  destruct Ht as [Hlt Hlower].
  destruct (IH i' (<[field_key := value]> fields)) as [-> Hall]; [lia|].
  split; [done|]. by constructor.
Qed.

Lemma str_eqb_eq a b : Str.eqb a b = true ↔ a = b.
Proof.
  revert b. induction a as [|x a IH]; intros [|y b]; cbn [Str.eqb]; try done.
  rewrite andb_true_iff, char_eqb_eq, IH. split; [by intros [-> ->]|by intros [= -> ->]].
Qed.

(** Last write wins: a look-up in the dictionary built by the assignments
    of a log finds the value of the last assignment to that name. *)
Lemma foldl_record_lookup log fields name :
  foldl record_field fields log !! name
  = match last_value name log with
    | Some v => Some v
    | None => fields !! name
    end.
Proof.
  revert fields. induction log as [|[k v] log IH]; intros fields; [done|].
  cbn [foldl last_value]. rewrite IH.
  destruct (last_value name log); [done|].
  unfold record_field. cbn [fst snd].
  destruct (Str.eqb k name) eqn:Hk.
  - apply str_eqb_eq in Hk as ->. by rewrite lookup_insert_eq.
  - rewrite lookup_insert_ne; [done|]. intros ->.
    by rewrite (proj2 (str_eqb_eq name name)) in Hk.
Qed.

Lemma last_value_elem name log v :
  last_value name log = Some v → (name, v) ∈ log.
Proof.
  induction log as [|[k v'] log IH]; [done|]. cbn [last_value].
  destruct (last_value name log).
  - intros [= <-]. right. by apply IH.
  - destruct (Str.eqb k name) eqn:Hk; [|done].
    apply str_eqb_eq in Hk as ->. intros [= <-]. left.
Qed.

(** What a match of [KEY_RE] looks like. *)
Lemma key_re_inv pos rest m :
  match_at KEY_RE pos rest = Some m →
  ∃ w ws ws2 key rest',
    rest = "@"%char :: w ++ ws ++ "{"%char :: ws2 ++ key ++ rest'
    ∧ key ≠ []
    ∧ Forall (λ c, Char.eqb "," c || Char.is_space c = false) key
    ∧ m_start m = pos
    ∧ m_end m = pos + 1 + length w + length ws + 1 + length ws2 + length key
    ∧ m_caps m = [(1, (m_end m - length key, m_end m))].
Proof.
  unfold match_at.
  destruct (run KEY_RE pos rest [] finish) as [[e cs]|] eqn:Hrun; [|done].
  intros [= <-]. cbn [m_start m_end m_caps].
  unfold KEY_RE in Hrun. cbn [run chr plus star] in Hrun.
  destruct rest as [|c rest]; [done|].
  destruct (Char.eqb "@" c) eqn:Hc; [|done]. apply char_eqb_eq in Hc as <-.
  apply rep_inv in Hrun as (n & Hrun & Hn & Hlo & _ & Hw).
  apply rep_inv in Hrun as (n' & Hrun & Hn' & _ & _ & Hws).
  destruct (drop n' (drop n rest)) as [|c' rest1] eqn:Hrest; [done|].
  destruct (Char.eqb "{" c') eqn:Hc'; [|done]. apply char_eqb_eq in Hc' as <-.
  apply rep_inv in Hrun as (n2 & Hrun & Hn2 & _ & _ & Hws2).
  apply rep_inv in Hrun as (nk & Hrun & Hnk & Hklo & _ & Hkey).
  unfold finish in Hrun. injection Hrun as <- <-.
  exists (take n rest), (take n' (drop n rest)), (take n2 rest1),
         (take nk (drop n2 rest1)), (drop nk (drop n2 rest1)).
  rewrite !take_drop, <- Hrest, !take_drop.
  rewrite length_drop in Hn'.
  rewrite !length_take, !length_drop.
  split; [done|]. split.
  { destruct (drop n2 rest1); [simpl in Hnk; lia|]. destruct nk; [lia|]. done. }
  rewrite length_drop in Hnk.
  split.
  { eapply Forall_impl; [exact Hkey|]. intros c. unfold none_of, either.
    by intros ->%negb_true_iff. }
  split; [done|]. split; [lia|].
  do 3 f_equal; lia.
Qed.

End field_scans.

Section parse_fields_log.
Import Re Bib BibLog.

Lemma key_re_group entry_text key_match :
  search KEY_RE entry_text = Some key_match →
  ∃ key, group entry_text key_match 1 = Some key
         ∧ key = Str.slice entry_text (m_end key_match - length key) (m_end key_match)
         ∧ valid_key key
         ∧ m_end key_match ≤ length entry_text.
Proof.
  unfold search. intros (n & Hn & Hat & _)%search_in_inv.
  destruct (key_re_inv _ _ _ Hat)
    as (w & ws & ws2 & key & rest' & Hdrop & Hk0 & Hkey & Hst & Hend & Hcaps).
  cbn [Nat.add] in Hend.
  assert (Hlen : length entry_text
                 = n + (1 + length w + length ws + 1 + length ws2 + length key
                        + length rest')).
  { pose proof (f_equal length Hdrop) as Hl. rewrite length_drop in Hl.
    cbn [length] in Hl. rewrite !length_app in Hl. cbn [length] in Hl.
    rewrite !length_app in Hl. lia. }
  assert (Hslice : Str.slice entry_text (m_end key_match - length key) (m_end key_match)
                   = key).
  { unfold Str.slice.
    replace (m_end key_match - length key)
      with (n + (1 + length w + length ws + 1 + length ws2)) by lia.
    rewrite <- drop_drop, Hdrop.
    change ("@"%char :: w ++ ws ++ "{"%char :: ws2 ++ key ++ rest')
      with (["@"%char] ++ w ++ ws ++ ["{"%char] ++ ws2 ++ key ++ rest').
    rewrite !app_assoc. rewrite <- (app_assoc _ key rest').
    rewrite drop_app_length'.
    2:{ rewrite !length_app. simpl. lia. }
    rewrite take_app_length'; [done|]. lia. }
  exists key. unfold group. rewrite Hcaps. cbn [lookup_group Nat.eqb].
  rewrite Hslice. split; [done|]. split; [done|].
  split; [done|]. lia.
Qed.

Lemma parse_fields_log entry_text :
  ∃ key fields,
    parse_fields entry_text = Some (key, fields)
    ∧ fields = foldl record_field ∅ (field_log entry_text)
    ∧ Forall (λ kv, Str.lower kv.1 = kv.1) (field_log entry_text).
Proof.
  unfold parse_fields, field_log.
  destruct (search KEY_RE entry_text) as [key_match|] eqn:Hsearch.
  2:{ exists None, ∅. by repeat split. }
  destruct (key_re_group _ _ Hsearch) as (key & -> & _).
  cbn [mbind option_bind].
  destruct (Str.find entry_text "," (m_end key_match)) as [body_start|].
  2:{ eexists _, ∅. by repeat split. }
  unfold parse_fields_text.
  set (fields_text := field_list_text entry_text body_start).
  destruct (fields_loop_log (S (length fields_text)) fields_text 0 ∅) as [-> Hall];
    [lia|].
  cbn [mbind option_bind]. eexists _, _. by repeat split.
Qed.

End parse_fields_log.

(** C9: [parse_fields] returns normally; every name in the dictionary it
    returns is what [str.lower] returns (so spellings that differ in case
    only are one key), and the value under a name is the value of the last
    assignment to that name in the entry: there is no check for
    duplicates.  The second part shows three spellings of one name. *)
Theorem field_names_lowercase_last_wins :
  (∀ entry_text : str,
     ∃ key fields,
       Bib.parse_fields entry_text = Some (key, fields)
       ∧ (∀ name value, fields !! name = Some value → Str.lower name = name)
       ∧ (∀ name, fields !! name = BibLog.last_value name (BibLog.field_log entry_text)))
  ∧ BibLog.field_log (py "@misc{k,\n Title = {A},\n TITLE = {B},\n title = {C}\n}")
    = [ ("title" : str, "A" : str); ("title" : str, "B" : str);
        ("title" : str, "C" : str) ]
  ∧ Bib.parse_fields (py "@misc{k,\n Title = {A},\n TITLE = {B},\n title = {C}\n}")
    = Some (Some ("k" : str), dict [("title", "C")]).
Proof.
  split; [|split; vm_compute; reflexivity].
  intros entry_text.
  destruct (parse_fields_log entry_text) as (key & fields & Hparse & -> & Hlower).
  eexists key, _. split; [exact Hparse|].
  assert (Hlookup : ∀ name,
            foldl BibLog.record_field ∅ (BibLog.field_log entry_text) !! name
            = BibLog.last_value name (BibLog.field_log entry_text)).
  { intros name. rewrite foldl_record_lookup.
    by destruct (BibLog.last_value name (BibLog.field_log entry_text)). }
  split; [|exact Hlookup].
  intros name value. rewrite Hlookup. intros Hin%last_value_elem.
  rewrite Forall_forall in Hlower. by apply (Hlower (name, value)).
Qed.

Lemma field_names_lowercase_last_wins_witness :
  ∃ key fields,
    Bib.parse_fields (py "@misc{k,\n Title = {A},\n TITLE = {B}\n}")
    = Some (key, fields)
    ∧ fields !! ("title" : str) = Some ("B" : str)
    ∧ Str.lower ("title" : str) = ("title" : str).
Proof.
  destruct (proj1 field_names_lowercase_last_wins
              (py "@misc{k,\n Title = {A},\n TITLE = {B}\n}"))
    as (key & fields & Hparse & Hlower & Hlast).
  exists key, fields. split; [exact Hparse|].
  assert (Hlookup : fields !! ("title" : str) = Some ("B" : str)).
  { rewrite Hlast. vm_compute. reflexivity. }
  split; [exact Hlookup|]. exact (Hlower _ _ Hlookup).
Defined.

Section read_value.
Import Re Bib BibLog.

Lemma strip_slice_mid (pre v tail : str) n :
  n = length pre + length v →
  Str.slice (pre ++ v ++ tail) (length pre) n = v.
Proof.
  intros ->. unfold Str.slice. rewrite drop_app_length.
  replace (length pre + length v - length pre) with (length v) by lia.
  by rewrite take_app_length.
Qed.

(** The scan of a braced value ends just after the brace that closes it. *)
Lemma brace_loop_balanced v tail i d :
  (1 ≤ d)%Z →
  balanced_from (d - 1) v = true →
  brace_loop (v ++ "}"%char :: tail) i d = i + length v + 1.
Proof.
  revert i d. induction v as [|c v IH]; intros i d Hd; cbn [app length balanced_from].
  - intros Hz%Z.eqb_eq. assert (d = 1%Z) as -> by lia.
    cbn [brace_loop]. replace (0 <? 1)%Z with true by done.
    replace (Char.eqb "}" "{") with false by done.
    replace (Char.eqb "}" "}") with true by done.
    replace (1 - 1)%Z with 0%Z by lia.
    destruct tail; cbn [brace_loop]; [lia|].
    replace (0 <? 0)%Z with false by done. lia.
  - cbn [brace_loop]. replace (0 <? d)%Z with true by (symmetry; apply Z.ltb_lt; lia).
    destruct (Char.eqb c "{").
    + intros Hb. rewrite IH; [lia|lia|].
      by replace (d + 1 - 1)%Z with (d - 1 + 1)%Z by lia.
    + destruct (Char.eqb c "}").
      * intros [Hpos%Z.ltb_lt Hb]%andb_prop. rewrite IH; [lia|lia|done].
      * intros Hb. rewrite IH; [lia|lia|done].
Qed.

Lemma read_value_braced pre v tail :
  balanced v = true →
  read_value (pre ++ "{"%char :: v ++ "}"%char :: tail) (length pre) "{"
  = (Str.strip v, length pre + length v + 2).
Proof.
  intros Hb. unfold read_value.
  replace (Str.mem "{" (py "{\q")) with true by done.
  replace (Char.eqb "{" "{") with true by done.
  cbv zeta.
  assert (Hdrop : drop (length pre + 1) (pre ++ "{"%char :: v ++ "}"%char :: tail)
                  = v ++ "}"%char :: tail).
  { rewrite <- drop_drop, drop_app_length. done. }
  rewrite Hdrop. rewrite brace_loop_balanced; [|lia|exact Hb].
  f_equal; [|lia]. f_equal.
  change (pre ++ "{"%char :: v ++ "}"%char :: tail)
    with (pre ++ ["{"%char] ++ v ++ "}"%char :: tail).
  rewrite app_assoc.
  replace (length pre + 1) with (length (pre ++ ["{"%char]))
    by (rewrite length_app; done).
  apply strip_slice_mid. rewrite length_app. cbn [length]. lia.
Qed.

Lemma read_value_quoted pre v tail :
  Forall (λ c, c ≠ dquote) v →
  read_value (pre ++ dquote :: v ++ dquote :: tail) (length pre) dquote
  = (Str.strip v, length pre + length v + 2).
Proof.
  intros Hv. unfold read_value.
  replace (Str.mem dquote (py "{\q")) with true by done.
  replace (Char.eqb dquote "{") with false by done.
  cbv zeta. unfold skip_notin.
  assert (Hdrop : drop (length pre + 1) (pre ++ dquote :: v ++ dquote :: tail)
                  = v ++ dquote :: tail).
  { rewrite <- drop_drop, drop_app_length. done. }
  rewrite Hdrop. change (py "\q") with [dquote]. rewrite skip_while_run.
  2:{ eapply Forall_impl; [exact Hv|]. intros c Hc. cbn [Str.mem existsb].
      rewrite orb_false_r. apply negb_true_iff, char_eqb_neq. done. }
  2:{ done. }
  f_equal; [|lia]. f_equal.
  change (pre ++ dquote :: v ++ dquote :: tail)
    with (pre ++ [dquote] ++ v ++ dquote :: tail).
  rewrite app_assoc.
  replace (length pre + 1) with (length (pre ++ [dquote]))
    by (rewrite length_app; done).
  apply strip_slice_mid. rewrite length_app. cbn [length]. lia.
Qed.

End read_value.

(** C6: the sub-parser reads a value opened by a brace up to the brace that
    closes it, the depth going back to 0 there: for a value [v] with
    balanced braces it returns [v] trimmed, nested braces included, and
    the cursor just after the closing brace, whatever stands before the
    value and after it.  The examples of the specification follow. *)
Theorem braced_value_read :
  (∀ pre v tail : str,
     BibLog.balanced v = true →
     Bib.read_value (pre ++ "{"%char :: v ++ "}"%char :: tail) (length pre) "{"
     = (Str.strip v, length pre + length v + 2))
  ∧ Bib.parse_fields_text (py "note = {A {nested} value}")
    = Some (dict [("note", "A {nested} value")])
  ∧ Bib.parse_fields_text (py "title = {{Deep} Learning}")
    = Some (dict [("title", "{Deep} Learning")])
  ∧ Bib.parse_fields (py "@misc{k,\n  note = { A {nested} value\n },\n  year = 2024\n}")
    = Some (Some ("k" : str), dict [("note", "A {nested} value"); ("year", "2024")]).
Proof.
  split; [exact read_value_braced|].
  repeat split; vm_compute; reflexivity.
Qed.

Lemma braced_value_read_witness :
  BibLog.balanced (" A {nested} value " : str) = true
  ∧ Bib.read_value (py "note = { A {nested} value },\n") 7 "{"
    = ("A {nested} value" : str, 27).
Proof.
  assert (H : BibLog.balanced (" A {nested} value " : str) = true)
    by (vm_compute; reflexivity).
  split; [exact H|].
  exact (proj1 braced_value_read ("note = " : str) (" A {nested} value " : str)
           (py ",\n") H).
Defined.

(** C3, as the code has it: the sub-parser reads a value opened by a double
    quote up to the next double quote, escaped or not: for a text [v]
    without a double quote it returns [v] trimmed and the cursor after the
    closing quote, whatever [v] holds otherwise (commas, a final
    backslash).  The example of the specification follows. *)
Theorem quoted_value_read :
  (∀ pre v tail : str,
     Forall (λ c, c ≠ Bib.dquote) v →
     Bib.read_value (pre ++ Bib.dquote :: v ++ Bib.dquote :: tail) (length pre)
       Bib.dquote
     = (Str.strip v, length pre + length v + 2))
  ∧ Bib.parse_fields_text (py "title = \qFoo, Bar\q")
    = Some (dict [("title", "Foo, Bar")])
  ∧ Bib.parse_fields (py "@misc{k, title = \qFoo, Bar\q, year = 2024}")
    = Some (Some ("k" : str), dict [("title", "Foo, Bar"); ("year", "2024")]).
Proof.
  split; [exact read_value_quoted|].
  repeat split; vm_compute; reflexivity.
Qed.

Lemma quoted_value_read_witness :
  Forall (λ c, c ≠ Bib.dquote) ("Foo, Bar\" : str)
  ∧ Bib.read_value (py "title = \qFoo, Bar\\\q, x") 8 Bib.dquote
    = ("Foo, Bar\" : str, 19).
Proof.
  assert (H : Forall (λ c, c ≠ Bib.dquote) ("Foo, Bar\" : str)).
  { repeat constructor; by vm_compute. }
  split; [exact H|].
  exact (proj1 quoted_value_read ("title = " : str) ("Foo, Bar\" : str)
           (", x" : str) H).
Defined.

(** C3 as it is stated fails on an escaped quote: in [title = "a\"b"] the
    text up to the next unescaped quote is [a\"b], and the parser stores
    [a\]. *)
Lemma quoted_value_escaped_quote :
  let fields_text := py "title = \qa\\\qb\q" in
  BibLog.until_unescaped_quote (drop 9 fields_text) = py "a\\\qb"
  ∧ Bib.read_value fields_text 8 Bib.dquote = (py "a\\", 12)
  ∧ ∃ fields,
      Bib.parse_fields_text fields_text = Some fields
      ∧ fields !! ("title" : str) = Some (py "a\\")
      ∧ fields !! ("title" : str)
        ≠ Some (Str.strip (BibLog.until_unescaped_quote (drop 9 fields_text))).
Proof.
  intros fields_text.
  split; [vm_compute; reflexivity|]. split; [vm_compute; reflexivity|].
  eexists. split; [vm_compute; reflexivity|].
  split; [vm_compute; reflexivity|]. vm_compute. discriminate.
Qed.

Section field_invariants.
Import Re Bib BibLog.

Lemma skip_while_passed p rest i :
  Forall (λ c, p c = true) (take (skip_while p rest i - i) rest).
Proof.
  revert i. induction rest as [|c rest IH]; intros i; cbn [skip_while].
  - by rewrite take_nil.
  - destruct (p c) eqn:Hc; [|by rewrite Nat.sub_diag].
    pose proof (skip_while_bounds p rest (S i)) as [Hge _].
    replace (skip_while p rest (S i) - i)
      with (S (skip_while p rest (S i) - S i)) by lia.
    cbn [firstn]. constructor; [done|apply IH].
Qed.

Lemma Forall_lstrip_by {P : ascii → Prop} p s :
  Forall P s → Forall P (Str.lstrip_by p s).
Proof.
  induction 1 as [|c s Hc Hs IH]; cbn [Str.lstrip_by]; [done|].
  destruct (p c); [done|]. by constructor.
Qed.

Lemma Forall_rstrip_by {P : ascii → Prop} p s :
  Forall P s → Forall P (Str.rstrip_by p s).
Proof.
  induction 1 as [|c s Hc Hs IH]; cbn [Str.rstrip_by]; [done|].
  destruct (Str.rstrip_by p s); [|by constructor].
  destruct (p c); by repeat constructor.
Qed.

Lemma read_value_stripped fields_text i delimiter :
  Str.strip (read_value fields_text i delimiter).1
  = (read_value fields_text i delimiter).1.
Proof.
  unfold read_value.
  destruct (Str.mem delimiter (py "{\q")); [destruct (Char.eqb delimiter "{")|];
    cbn [fst]; apply strip_by_idem.
Qed.

Lemma field_turn_ok fields_text i field_key value i' :
  field_turn fields_text i = Some (Assign field_key value i') →
  field_ok (field_key, value).
Proof.
  unfold field_turn.
  set (i1 := skip_in (py "\n\r\t ,") fields_text i).
  destruct (length fields_text <=? i1); [done|].
  set (i2 := skip_notin "=" fields_text i1).
  set (raw := Str.slice fields_text i1 i2).
  destruct (Str.nonempty (Str.lower (Str.strip raw))) eqn:Hne; cbn [negb]; [|done].
  set (i3 := skip_in (py " \t\n\r") fields_text (i2 + 1)).
  destruct (length fields_text <=? i3); [done|].
  destruct (fields_text !! i3) as [delimiter|]; [|done]. cbn [mbind option_bind].
  pose proof (read_value_stripped fields_text i3 delimiter) as Hval.
  destruct (read_value fields_text i3 delimiter) as [v j]. cbn [fst] in Hval.
  intros [= <- <- _].
  destruct (strip_by_shape Char.is_space raw) as [Hhead Hr].
  fold (Str.strip raw) in Hhead, Hr.
  unfold field_ok. cbn [fst snd].
  split; [by destruct (Str.lower (Str.strip raw))|].
  split.
  { destruct (Str.strip raw) as [|c t]; [done|].
    change (Char.is_space (Char.lower c) = false). by rewrite char_lower_space. }
  split; [unfold Str.rstrip; by rewrite lower_rstrip, Hr|].
  split; [apply lower_idem|]. split; [|done].
  unfold Str.lower. apply Forall_map.
  assert (Hraw : Forall (λ c, Char.eqb c "=" = false) raw).
  { unfold raw, Str.slice, i2, skip_notin.
    eapply Forall_impl; [apply skip_while_passed|].
    intros c Hc. cbn in Hc. rewrite orb_false_r in Hc.
    by apply negb_true_iff in Hc. }
  unfold Str.strip, Str.strip_by.
  eapply Forall_impl; [apply Forall_rstrip_by, Forall_lstrip_by, Hraw|].
  intros c Hc. cbn. by rewrite char_lower_eq_sign.
Qed.

Lemma assignments_ok fuel fields_text i :
  Forall field_ok (assignments fuel fields_text i).
Proof.
  revert i. induction fuel as [|fuel IH]; intros i; cbn [assignments]; [done|].
  destruct (i <? length fields_text); [|done].
  destruct (field_turn fields_text i) as [[|field_key value i']|] eqn:Ht; try done.
  constructor; [by eapply field_turn_ok|apply IH].
Qed.

End field_invariants.

(** ** Re-reading a serialized entry *)

Section roundtrip.
Import Re Bib BibLog.

Lemma drop_app_at (a b : str) n : n = length a → drop n (a ++ b) = b.
Proof. intros ->. apply drop_app_length. Qed.

Lemma skip_in_run chars (pre w rest : str) :
  Forall (λ c, Str.mem c chars = true) w →
  match rest with [] => True | c :: _ => Str.mem c chars = false end →
  skip_in chars (pre ++ w ++ rest) (length pre) = length pre + length w.
Proof.
  intros Hw Hrest. unfold skip_in. rewrite drop_app_length.
  by apply skip_while_run.
Qed.

Lemma skip_notin_run chars (pre w rest : str) :
  Forall (λ c, Str.mem c chars = false) w →
  match rest with [] => True | c :: _ => Str.mem c chars = true end →
  skip_notin chars (pre ++ w ++ rest) (length pre) = length pre + length w.
Proof.
  intros Hw Hrest. unfold skip_notin. rewrite drop_app_length.
  apply skip_while_run.
  - eapply Forall_impl; [exact Hw|]. cbn. by intros c ->.
  - destruct rest; [done|]. by rewrite Hrest.
Qed.

(** One turn of the loop on a field whose value is in braces. *)
Lemma field_turn_braced (pre sep raw ws v tail : str) :
  Forall (λ c, Str.mem c (py "\n\r\t ,") = true) sep →
  match raw with c :: _ => Str.mem c (py "\n\r\t ,") = false | [] => False end →
  Forall (λ c, Char.eqb c "=" = false) raw →
  Str.nonempty (Str.lower (Str.strip raw)) = true →
  Forall (λ c, Str.mem c (py " \t\n\r") = true) ws →
  balanced v = true →
  field_turn (pre ++ sep ++ raw ++ "="%char :: ws ++ "{"%char :: v ++ "}"%char :: tail)
    (length pre)
  = Some (Assign (Str.lower (Str.strip raw)) (Str.strip v)
            (advance tail (length pre + length sep + length raw + 1 + length ws
                           + 1 + length v + 1))).
Proof.
  intros Hsep Hraw0 Hraw Hne Hws Hbal.
  set (s := pre ++ sep ++ raw ++ "="%char :: ws ++ "{"%char :: v ++ "}"%char :: tail).
  assert (Hlen : length s = length pre + length sep + length raw + 1 + length ws
                            + 1 + length v + 1 + length tail).
  { unfold s. rewrite !length_app. cbn [length]. rewrite !length_app.
    cbn [length]. rewrite !length_app. cbn [length]. lia. }
  unfold field_turn. fold s.
  assert (H1 : skip_in (py "\n\r\t ,") s (length pre) = length pre + length sep).
  { unfold s. apply skip_in_run; [done|]. destruct raw; [done|]. done. }
  rewrite H1.
  replace (length s <=? length pre + length sep) with false
    by (symmetry; apply Nat.leb_gt; destruct raw; [done|]; cbn [length] in Hlen; lia).
  assert (H2 : skip_notin "=" s (length pre + length sep)
               = length pre + length sep + length raw).
  { unfold s. rewrite (app_assoc pre sep). rewrite <- length_app.
    apply skip_notin_run; [|done].
    eapply Forall_impl; [exact Hraw|]. intros c Hc. cbn.
    by rewrite orb_false_r. }
  rewrite H2.
  assert (Hslice : Str.slice s (length pre + length sep)
                     (length pre + length sep + length raw) = raw).
  { unfold s. rewrite (app_assoc pre sep). rewrite <- length_app.
    apply strip_slice_mid. done. }
  rewrite Hslice, Hne. cbn [negb].
  assert (H3 : skip_in (py " \t\n\r") s (length pre + length sep + length raw + 1)
               = length pre + length sep + length raw + 1 + length ws).
  { unfold s.
    change (pre ++ sep ++ raw ++ "="%char :: ws ++ "{"%char :: v ++ "}"%char :: tail)
      with (pre ++ sep ++ raw ++ ["="%char] ++ ws ++ "{"%char :: v ++ "}"%char :: tail).
    rewrite (app_assoc raw), (app_assoc sep), (app_assoc pre).
    replace (length pre + length sep + length raw + 1)
      with (length (pre ++ sep ++ raw ++ ["="%char]))
      by (rewrite !length_app; cbn [length]; lia).
    apply skip_in_run; [done|]. done. }
  rewrite H3.
  replace (length s <=? length pre + length sep + length raw + 1 + length ws)
    with false by (symmetry; apply Nat.leb_gt; lia).
  assert (Hs : s = (pre ++ sep ++ raw ++ "="%char :: ws)
                   ++ "{"%char :: v ++ "}"%char :: tail).
  { unfold s. rewrite <- !app_assoc. cbn [app]. by rewrite <- ?app_assoc. }
  assert (Hpre : length (pre ++ sep ++ raw ++ "="%char :: ws)
                 = length pre + length sep + length raw + 1 + length ws).
  { rewrite !length_app. cbn [length]. lia. }
  rewrite <- Hpre.
  assert (Hd : s !! length (pre ++ sep ++ raw ++ "="%char :: ws) = Some "{"%char).
  { rewrite Hs. rewrite lookup_app_r by lia. by rewrite Nat.sub_diag. }
  rewrite Hd. cbn [mbind option_bind].
  rewrite Hs at 1. rewrite read_value_braced by done.
  assert (Hdrop : drop (length (pre ++ sep ++ raw ++ "="%char :: ws) + length v + 2) s
                  = tail).
  { rewrite Hs at 1.
    replace (length (pre ++ sep ++ raw ++ "="%char :: ws) + length v + 2)
      with (length (pre ++ sep ++ raw ++ "="%char :: ws) + (S (length v + 1)))
      by lia.
    rewrite <- drop_drop, drop_app_length. cbn [skipn].
    rewrite <- drop_drop, drop_app_length. done. }
  rewrite Hdrop. do 3 f_equal. lia.
Qed.

Lemma not_space_not_sep c :
  Char.is_space c = false → c ≠ ","%char → Str.mem c (py "\n\r\t ,") = false.
Proof.
  intros Hs Hc.
  destruct c as [[] [] [] [] [] [] [] []]; try reflexivity;
    try (by vm_compute in Hs); by exfalso.
Qed.

(** One turn of the loop on the text [name = {value}] of a field. *)
Lemma field_turn_item (pre sep tail : str) (kv : str * str) :
  Forall (λ c, Str.mem c (py "\n\r\t ,") = true) sep →
  field_ok kv → field_rereadable kv →
  field_turn (pre ++ sep ++ kv.1 ++ " = {" ++ kv.2 ++ "}" ++ tail) (length pre)
  = Some (Assign kv.1 kv.2
            (advance tail (length pre + length sep + length kv.1 + length kv.2 + 5))).
Proof.
  destruct kv as [n v]. cbn [fst snd].
  intros Hsep (Hn0 & Hhead & Hr & Hlow & Heq & Hv) [Hbal Hcomma].
  cbn [fst snd] in *.
  replace (pre ++ sep ++ n ++ " = {" ++ v ++ "}" ++ tail)
    with (pre ++ sep ++ (n ++ [" "%char]) ++ "="%char :: [" "%char]
          ++ "{"%char :: v ++ "}"%char :: tail)
    by (by rewrite <- !app_assoc).
  assert (Hstrip : Str.strip (n ++ [" "%char]) = n).
  { unfold Str.strip, Str.strip_by.
    rewrite lstrip_by_keep by (destruct n; [done|]; exact Hhead).
    rewrite rstrip_by_snoc_drop by done. exact Hr. }
  rewrite field_turn_braced; try done.
  - rewrite Hstrip, Hlow, Hv.
    do 3 f_equal. rewrite length_app. cbn [length]. lia.
  - destruct n as [|c n]; [done|]. cbn [app].
    apply not_space_not_sep; [done|]. intros ->. by apply Hcomma.
  - apply Forall_app. split; [done|]. by repeat constructor.
  - rewrite Hstrip, Hlow. by destruct n.
  - by repeat constructor.
Qed.

Lemma field_turn_end (pre sep : str) :
  Forall (λ c, Str.mem c (py "\n\r\t ,") = true) sep →
  field_turn (pre ++ sep) (length pre) = Some Break.
Proof.
  intros Hsep. unfold field_turn.
  assert (H1 : skip_in (py "\n\r\t ,") (pre ++ sep) (length pre)
               = length pre + length sep).
  { rewrite <- (app_nil_r sep) at 1. by apply skip_in_run. }
  rewrite H1, length_app, Nat.leb_refl. done.
Qed.

Lemma advance_comma tail j : advance (","%char :: tail) j = S j.
Proof. reflexivity. Qed.

Lemma advance_newline tail j : advance (Char.newline :: tail) j = j.
Proof. reflexivity. Qed.

(** The loop on the pairs [name = {value}] of a list of fields, separated
    by a comma and a line break, reads the list back. *)
Lemma assignments_pairs (l : list (str * str)) :
  l ≠ [] → Forall field_ok l → Forall field_rereadable l →
  ∀ (pre sep : str) fuel,
    Forall (λ c, Str.mem c (py "\n\r\t ,") = true) sep →
    length (pre ++ sep ++ Str.join (py ",\n  ") (map field_pair l) ++ py "\n")
    - length pre < fuel →
    assignments fuel
      (pre ++ sep ++ Str.join (py ",\n  ") (map field_pair l) ++ py "\n")
      (length pre)
    = l.
Proof.
  induction l as [|f l IH]; [done|]. intros _ Hok Hre pre sep fuel Hsep Hfuel.
  inversion Hok as [|? ? Hf_ok Hl_ok]; subst.
  inversion Hre as [|? ? Hf_re Hl_re]; subst.
  destruct l as [|g l].
  - (* the last field: a line break follows *)
    cbn [map Str.join] in *. unfold field_pair in *.
    set (s := pre ++ sep ++ (f.1 ++ " = {" ++ f.2 ++ "}") ++ py "\n") in *.
    assert (Hs : s = pre ++ sep ++ f.1 ++ " = {" ++ f.2 ++ "}" ++ Char.newline :: [])
      by (unfold s; by rewrite <- !app_assoc).
    assert (Hlen : length s = length pre + length sep + length f.1 + length f.2 + 6).
    { rewrite Hs. rewrite !length_app. cbn. lia. }
    destruct fuel as [|fuel]; [lia|]. cbn [assignments].
    replace (length pre <? length s) with true by (symmetry; apply Nat.ltb_lt; lia).
    rewrite Hs at 1. rewrite field_turn_item by done.
    rewrite advance_newline. f_equal; [by destruct f|].
    destruct fuel as [|fuel]; [lia|]. cbn [assignments].
    replace (length pre + length sep + length f.1 + length f.2 + 5 <? length s)
      with true by (symmetry; apply Nat.ltb_lt; lia).
    assert (Hs' : s = (pre ++ sep ++ f.1 ++ " = {" ++ f.2 ++ "}") ++ [Char.newline])
      by (rewrite Hs; by rewrite <- !app_assoc).
    assert (Hl' : length (pre ++ sep ++ f.1 ++ " = {" ++ f.2 ++ "}")
                  = length pre + length sep + length f.1 + length f.2 + 5).
    { rewrite !length_app. cbn. lia. }
    rewrite <- Hl', Hs'. rewrite field_turn_end; [done|]. by repeat constructor.
  - (* a comma and the next field follow *)
    change (Str.join (py ",\n  ") (map field_pair (f :: g :: l)))
      with (field_pair f ++ py ",\n  " ++ Str.join (py ",\n  ") (map field_pair (g :: l)))
      in *.
    set (J := Str.join (py ",\n  ") (map field_pair (g :: l))) in *.
    unfold field_pair in Hfuel |- * at 1.
    set (s := pre ++ sep ++ ((f.1 ++ " = {" ++ f.2 ++ "}") ++ py ",\n  " ++ J) ++ py "\n") in *.
    assert (Hs : s = pre ++ sep ++ f.1 ++ " = {" ++ f.2 ++ "}"
                     ++ ","%char :: [Char.newline; " "%char; " "%char] ++ J
                     ++ [Char.newline])
      by (unfold s; by rewrite <- !app_assoc).
    assert (Hlen : length s = length pre + length sep + length f.1 + length f.2 + 5
                              + 1 + 3 + length J + 1).
    { rewrite Hs. rewrite !length_app. cbn. rewrite !length_app.
      cbn. lia. }
    destruct fuel as [|fuel]; [lia|]. cbn [assignments].
    replace (length pre <? length s) with true by (symmetry; apply Nat.ltb_lt; lia).
    rewrite Hs at 1. rewrite field_turn_item by done.
    rewrite advance_comma. f_equal; [by destruct f|].
    assert (Hs' : s = (pre ++ sep ++ f.1 ++ " = {" ++ f.2 ++ "}" ++ [","%char])
                      ++ [Char.newline; " "%char; " "%char] ++ J ++ py "\n")
      by (rewrite Hs; by rewrite <- !app_assoc).
    assert (Hl' : length (pre ++ sep ++ f.1 ++ " = {" ++ f.2 ++ "}" ++ [","%char])
                  = S (length pre + length sep + length f.1 + length f.2 + 5)).
    { rewrite !length_app. cbn. lia. }
    rewrite <- Hl', Hs'. apply IH; [done|done|done|by repeat constructor|].
    rewrite <- Hs', Hl'. lia.
Qed.

(** [KEY_RE] on the head of a serialized entry. *)
Lemma key_re_forward (k rest : str) :
  valid_key k →
  search KEY_RE ("@misc{" ++ k ++ ","%char :: rest)
  = Some (Match 0 (6 + length k) [(1, (6, 6 + length k))]).
Proof.
  intros [Hk0 Hk]. unfold search.
  assert (Hat : match_at KEY_RE 0 ("@misc{" ++ k ++ ","%char :: rest)
                = Some (Match 0 (6 + length k) [(1, (6, 6 + length k))])).
  { unfold match_at.
    assert (Hrun : run KEY_RE 0 ("@misc{" ++ k ++ ","%char :: rest) [] finish
                   = Some (6 + length k, [(1, (6, 6 + length k))])).
    { unfold KEY_RE. cbn [run chr plus star].
      change ("@misc{" ++ k ++ ","%char :: rest)
        with ("@"%char :: ["m"; "i"; "s"; "c"]%char ++ "{"%char :: k ++ ","%char :: rest).
      lazy beta iota. rewrite char_eqb_refl.
      apply rep_greedy_max; [by repeat constructor|done|cbn; lia|].
      apply (rep_greedy_max _ _ _ []); [done|done|cbn; lia|].
      cbn [length Nat.add app]. rewrite char_eqb_refl.
      apply (rep_greedy_max _ _ _ []); [done| |cbn; lia|].
      { destruct k as [|c k]; [done|]. cbn [app].
        inversion Hk as [|? ? Hc _]; subst.
        by apply orb_false_iff in Hc as [_ Hc]. }
      cbn [length Nat.add app].
      apply rep_greedy_max.
      - eapply Forall_impl; [exact Hk|]. intros c Hc. unfold none_of, either.
        by rewrite Hc.
      - done.
      - destruct k; [done|]. cbn. lia.
      - unfold finish. do 3 f_equal; lia. }
    by rewrite Hrun. }
  destruct ("@misc{" ++ k ++ ","%char :: rest); cbn [search_in]; by rewrite Hat.
Qed.

Lemma field_text_join (l : list (str * str)) :
  l ≠ [] →
  Str.join (py ",\n") (map field_text l)
  = "  " ++ Str.join (py ",\n  ") (map field_pair l).
Proof.
  induction l as [|f l IH]; [done|]. intros _.
  destruct l as [|g l]; [done|].
  change (Str.join (py ",\n") (map field_text (f :: g :: l)))
    with (field_text f ++ py ",\n" ++ Str.join (py ",\n") (map field_text (g :: l))).
  rewrite IH by done. unfold field_text.
  change (Str.join (py ",\n  ") (map field_pair (f :: g :: l)))
    with (field_pair f ++ py ",\n  " ++ Str.join (py ",\n  ") (map field_pair (g :: l))).
  rewrite <- !app_assoc. done.
Qed.

Lemma field_pair_head (f : str * str) :
  field_ok f →
  ∃ c t, field_pair f = c :: t ∧ Char.is_space c = false.
Proof.
  destruct f as [n v]. intros (Hn0 & Hhead & _). cbn [fst] in *.
  destruct n as [|c n]; [done|]. unfold field_pair. cbn [fst snd app]. eauto.
Qed.

Lemma join_pairs_head (l : list (str * str)) :
  l ≠ [] → Forall field_ok l →
  ∃ c t, Str.join (py ",\n  ") (map field_pair l) = c :: t ∧ Char.is_space c = false.
Proof.
  destruct l as [|f l]; [done|]. intros _ Hok.
  inversion Hok as [|? ? Hf _]; subst.
  destruct (field_pair_head f Hf) as (c & t & Hp & Hc).
  destruct l as [|g l].
  - cbn [map Str.join]. eauto.
  - change (Str.join (py ",\n  ") (map field_pair (f :: g :: l)))
      with (field_pair f ++ py ",\n  " ++ Str.join (py ",\n  ") (map field_pair (g :: l))).
    rewrite Hp. cbn [app]. eauto.
Qed.

(** The field-list text of a serialized entry. *)
Lemma field_list_text_serialized (k : str) (l : list (str * str)) :
  l ≠ [] → Forall field_ok l →
  field_list_text (serialize_entry k l) (6 + length k)
  = Str.join (py ",\n  ") (map field_pair l) ++ py "\n".
Proof.
  intros Hl Hok. unfold field_list_text, serialize_entry.
  rewrite field_text_join by done.
  set (J := Str.join (py ",\n  ") (map field_pair l)).
  assert (Hdrop : drop (6 + length k + 1)
                    ("@misc{" ++ k ++ py ",\n" ++ ("  " ++ J) ++ py "\n}")
                  = Char.newline :: " "%char :: " "%char :: J
                    ++ [Char.newline; "}"%char]).
  { replace ("@misc{" ++ k ++ py ",\n" ++ ("  " ++ J) ++ py "\n}")
      with (("@misc{" ++ k ++ [","%char])
            ++ Char.newline :: " "%char :: " "%char :: J ++ [Char.newline; "}"%char])
      by (by rewrite <- !app_assoc).
    apply drop_app_at. rewrite !length_app. cbn. lia. }
  rewrite Hdrop.
  destruct (join_pairs_head l Hl Hok) as (c & t & HJ & Hc). fold J in HJ.
  assert (Hstrip : Str.strip (Char.newline :: " "%char :: " "%char :: J
                              ++ [Char.newline; "}"%char])
                   = (J ++ [Char.newline]) ++ ["}"%char]).
  { unfold Str.strip, Str.strip_by. cbn [Str.lstrip_by].
    replace (Char.is_space Char.newline) with true by done.
    replace (Char.is_space " ") with true by done.
    rewrite HJ. cbn [app Str.lstrip_by]. rewrite Hc.
    replace (c :: t ++ [Char.newline; "}"%char])
      with ((c :: t ++ [Char.newline]) ++ ["}"%char])
      by (cbn [app]; by rewrite <- app_assoc).
    by rewrite rstrip_by_snoc_keep. }
  rewrite Hstrip.
  assert (Hends : Str.endswith ((J ++ [Char.newline]) ++ ["}"%char]) "}" = true).
  { apply (endswith_snoc _ "}"%char). }
  rewrite Hends. rewrite length_app. cbn [length].
  rewrite take_app_length'; [done|lia].
Qed.

Lemma last_value_none name (log : list (str * str)) :
  last_value name log = None → name ∉ log.*1.
Proof.
  induction log as [|[k v] log IH]; cbn [last_value]; [by intros _ ?%elem_of_nil|].
  destruct (last_value name log); [done|].
  destruct (Str.eqb k name) eqn:Hk; [done|]. intros _.
  cbn [fmap list_fmap fst]. intros [->|Hin]%elem_of_cons.
  - by rewrite (proj2 (str_eqb_eq k k)) in Hk.
  - by apply IH.
Qed.

Lemma foldl_record_list_to_map (l : list (str * str)) :
  NoDup l.*1 → foldl record_field ∅ l = list_to_map l.
Proof.
  intros Hnd. apply map_eq. intros name. rewrite foldl_record_lookup.
  destruct (last_value name l) as [v|] eqn:Hlast.
  - symmetry. apply elem_of_list_to_map; [done|]. by apply last_value_elem.
  - rewrite lookup_empty. symmetry. apply not_elem_of_list_to_map.
    by apply last_value_none.
Qed.

(** Parsing a serialized entry gives the key and the fields back. *)
Lemma parse_serialized (k : str) (l : list (str * str)) :
  valid_key k → Forall field_ok l → Forall field_rereadable l →
  parse_fields (serialize_entry k l) = Some (Some k, foldl record_field ∅ l).
Proof.
  intros Hk Hok Hre. unfold parse_fields.
  assert (Htext : serialize_entry k l
                  = "@misc{" ++ k ++ ","%char
                    :: Char.newline :: Str.join (py ",\n") (map field_text l)
                    ++ py "\n}") by done.
  rewrite Htext at 1. rewrite key_re_forward by done.
  unfold group. cbn [m_caps lookup_group Nat.eqb m_end mbind option_bind].
  assert (Hkey : Str.slice (serialize_entry k l) 6 (6 + length k) = k).
  { rewrite Htext. change 6 with (length ("@misc{" : str)) at 1 2.
    apply strip_slice_mid. done. }
  rewrite Hkey.
  assert (Hstrip : Str.strip k = k).
  { destruct Hk as [_ Hk]. unfold Str.strip. apply strip_by_keep.
    - destruct k as [|c k]; [done|]. inversion Hk as [|? ? Hc _]; subst.
      by apply orb_false_iff in Hc as [_ Hc].
    - apply rstrip_by_none. eapply Forall_impl; [exact Hk|].
      intros c Hc. by apply orb_false_iff in Hc as [_ Hc]. }
  rewrite Hstrip.
  assert (Hfind : Str.find (serialize_entry k l) "," (6 + length k)
                  = Some (6 + length k)).
  { unfold Str.find. rewrite Htext.
    replace ("@misc{" ++ k ++ ","%char :: Char.newline
             :: Str.join (py ",\n") (map field_text l) ++ py "\n}")
      with (("@misc{" ++ k) ++ ","%char :: Char.newline
            :: Str.join (py ",\n") (map field_text l) ++ py "\n}")
      by (by rewrite <- app_assoc).
    rewrite drop_app_at by (rewrite length_app; done).
    apply find_in_here. }
  rewrite Hfind.
  destruct l as [|f l].
  - assert (Hft : field_list_text (serialize_entry k []) (6 + length k) = []).
    { unfold field_list_text. rewrite Htext. cbn [map Str.join app].
      replace ("@misc{" ++ k ++ ","%char :: Char.newline :: py "\n}")
        with (("@misc{" ++ k ++ [","%char]) ++ Char.newline :: py "\n}")
        by (by rewrite <- !app_assoc).
      rewrite drop_app_at by (rewrite !length_app; cbn; lia).
      reflexivity. }
    rewrite Hft. reflexivity.
  - rewrite field_list_text_serialized by done.
    unfold parse_fields_text.
    set (ft := Str.join (py ",\n  ") (map field_pair (f :: l)) ++ py "\n").
    destruct (fields_loop_log (S (length ft)) ft 0 ∅) as [-> _]; [lia|].
    cbn [mbind option_bind]. do 3 f_equal.
    apply (assignments_pairs (f :: l) ltac:(done) Hok Hre [] []); [done|].
    cbn [app length]. fold ft. lia.
Qed.

End roundtrip.

Section roundtrip_theorem.
Import Re Bib BibLog.

Lemma field_log_ok entry_text : Forall field_ok (field_log entry_text).
Proof.
  unfold field_log.
  destruct (search KEY_RE entry_text) as [key_match|]; [|done].
  destruct (Str.find entry_text "," (m_end key_match)); [|done].
  apply assignments_ok.
Qed.

Lemma parsed_key_valid entry_text key fields :
  parse_fields entry_text = Some (Some key, fields) → valid_key key.
Proof.
  unfold parse_fields.
  destruct (search KEY_RE entry_text) as [key_match|] eqn:Hsearch; [|done].
  destruct (key_re_group _ _ Hsearch) as (g & -> & _ & Hvalid & _).
  cbn [mbind option_bind].
  assert (Hstrip : Str.strip g = g).
  { destruct Hvalid as [_ Hg]. unfold Str.strip. apply strip_by_keep.
    - destruct g as [|c g]; [done|]. inversion Hg as [|? ? Hc _]; subst.
      by apply orb_false_iff in Hc as [_ Hc].
    - apply rstrip_by_none. eapply Forall_impl; [exact Hg|].
      intros c Hc. by apply orb_false_iff in Hc as [_ Hc]. }
  rewrite Hstrip.
  destruct (Str.find entry_text "," (m_end key_match)).
  - destruct (parse_fields_text _); [|done]. cbn. by intros [= <- _].
  - by intros [= <- _].
Qed.

End roundtrip_theorem.

(** C5, as the code has it: take the fields that [parse_fields] returns for
    an entry, and suppose every value has balanced braces and no name
    begins with a comma.  Then writing the fields, in any order, as
    [name = {value}] pairs under a citation key and parsing that text gives
    the same dictionary, with the very same values, and the key.  The
    citation key that [parse_fields] returned can be used for it. *)
Theorem reserialized_fields_reparse
    (entry_text : str) (key : option str) (fields : gmap str str) :
  Bib.parse_fields entry_text = Some (key, fields) →
  (∀ name value, fields !! name = Some value →
                 BibLog.field_rereadable (name, value)) →
  (∀ k, key = Some k → BibLog.valid_key k)
  ∧ ∀ (k : str) (l : list (str * str)),
      BibLog.valid_key k → NoDup l.*1 → list_to_map l = fields →
      Bib.parse_fields (BibLog.serialize_entry k l) = Some (Some k, fields).
Proof.
  intros Hparse Hre. split.
  { intros k ->. by eapply parsed_key_valid. }
  intros k l Hk Hnd Hl.
  destruct (parse_fields_log entry_text) as (key' & fields' & Hparse' & Hfields & _).
  rewrite Hparse in Hparse'. injection Hparse' as <- <-.
  assert (Hin : ∀ kv, kv ∈ l → fields !! kv.1 = Some kv.2).
  { intros [n v] Hkv. rewrite <- Hl. by apply elem_of_list_to_map. }
  rewrite parse_serialized; [|done| |].
  - by rewrite foldl_record_list_to_map, Hl.
  - apply Forall_forall. intros [n v] Hkv. specialize (Hin _ Hkv). cbn in Hin.
    rewrite Hfields, foldl_record_lookup in Hin.
    destruct (BibLog.last_value n (BibLog.field_log entry_text)) as [v'|] eqn:Hlast;
      [|by rewrite lookup_empty in Hin].
    injection Hin as ->. apply last_value_elem in Hlast.
    pose proof (field_log_ok entry_text) as Hok.
    rewrite Forall_forall in Hok. by apply Hok.
  - apply Forall_forall. intros [n v] Hkv. apply Hre. by apply (Hin (n, v)).
Qed.

Lemma reserialized_fields_reparse_witness :
  let entry_text :=
    py "@misc{doe2024foo,\n  Title = {Foo {Bar}},\n  year = \q2024\q\n}" in
  let fields := dict [("title", "Foo {Bar}"); ("year", "2024")] in
  let l : list (str * str) :=
    [ ("year" : str, "2024" : str); ("title" : str, "Foo {Bar}" : str) ] in
  Bib.parse_fields entry_text = Some (Some ("doe2024foo" : str), fields)
  ∧ BibLog.serialize_entry "doe2024foo" l
    = py "@misc{doe2024foo,\n  year = {2024},\n  title = {Foo {Bar}}\n}"
  ∧ Bib.parse_fields (BibLog.serialize_entry "doe2024foo" l)
    = Some (Some ("doe2024foo" : str), fields).
Proof.
  intros entry_text fields l.
  assert (Hparse : Bib.parse_fields entry_text
                   = Some (Some ("doe2024foo" : str), fields))
    by (vm_compute; reflexivity).
  assert (Hre : ∀ name value, fields !! name = Some value →
                              BibLog.field_rereadable (name, value)).
  { intros name value Hlookup.
    apply elem_of_list_to_map_2 in Hlookup.
    cbn [map fst snd] in Hlookup.
    repeat (apply elem_of_cons in Hlookup as [[= -> ->]|Hlookup];
            [by (split; vm_compute)|]).
    by apply elem_of_nil in Hlookup. }
  split; [exact Hparse|]. split; [vm_compute; reflexivity|].
  destruct (reserialized_fields_reparse entry_text _ fields Hparse Hre) as [Hkey Hround].
  apply Hround.
  - apply Hkey. reflexivity.
  - repeat (constructor; [by (rewrite ?elem_of_cons, elem_of_nil; vm_compute; intuition discriminate)|]).
    constructor.
  - vm_compute. reflexivity.
Defined.

(** C5 as it is stated fails for a value with a closing brace of its own:
    the quoted value of [note = "}"] is [}], its pair is [note = {}}], and
    parsing that gives the empty value. *)
Lemma unbalanced_value_not_reread :
  let entry_text := py "@misc{k, note = \q}\q}" in
  let fields := dict [("note", "}")] in
  Bib.parse_fields entry_text = Some (Some ("k" : str), fields)
  ∧ map_to_list fields = [ ("note" : str, "}" : str) ]
  ∧ BibLog.serialize_entry "k" (map_to_list fields) = py "@misc{k,\n  note = {}}\n}"
  ∧ Bib.parse_fields (BibLog.serialize_entry "k" (map_to_list fields))
    = Some (Some ("k" : str), dict [("note", "")])
  ∧ Str.strip <$> (dict [("note", "")] !! ("note" : str))
    ≠ Str.strip <$> (fields !! ("note" : str)).
Proof.
  intros entry_text fields.
  split; [vm_compute; reflexivity|]. split; [vm_compute; reflexivity|].
  split; [vm_compute; reflexivity|]. split; [vm_compute; reflexivity|].
  vm_compute. discriminate.
Qed.

(** The second condition of [field_rereadable]: a name can begin with a
    comma when a character that [str.strip] removes, but the loop does not
    skip, stands before it (here a vertical tab); its pair is then read
    back under another name. *)
Example comma_name_not_reread :
  let vt := ascii_of_N 11 in
  let entry_text := py "@misc{k, b = {y}," ++ vt :: py ",a = {x}}" in
  Bib.parse_fields entry_text
  = Some (Some ("k" : str), dict [("b", "y"); (",a", "x")])
  ∧ Bib.parse_fields
      (BibLog.serialize_entry "k" [ ("b" : str, "y" : str); (",a" : str, "x" : str) ])
    = Some (Some ("k" : str), dict [("b", "y"); ("a", "x")]).
Proof. vm_compute. split; reflexivity. Qed.

(** ** More facts on strings *)

Section string_facts2.

Lemma startswith_app (p s : str) : Str.startswith (p ++ s) p = true.
Proof.
  induction p as [|c p IH]; [by destruct s|].
  cbn [app Str.startswith]. by rewrite char_eqb_refl, IH.
Qed.

Lemma startswith_nil (s : str) : Str.startswith s [] = true.
Proof. by destruct s. Qed.

(** Only the first [length p] characters of [s] matter to
    [s.startswith(p)]. *)
Lemma startswith_app_long (a b p : str) :
  length p ≤ length a → Str.startswith (a ++ b) p = Str.startswith a p.
Proof.
  revert a. induction p as [|x p IH]; intros a Hlen.
  - by rewrite !startswith_nil.
  - destruct a as [|y a]; [cbn in Hlen; lia|].
    cbn [app Str.startswith]. rewrite IH; [done|]. cbn in Hlen. lia.
Qed.

Lemma startswith_inv (s p : str) :
  Str.startswith s p = true → ∃ rest, s = p ++ rest.
Proof.
  revert s. induction p as [|c p IH]; intros s; cbn [Str.startswith].
  - intros _. by exists s.
  - destruct s as [|x s]; [done|].
    intros [Hc Hs]%andb_prop. apply char_eqb_eq in Hc as ->.
    destruct (IH _ Hs) as [rest ->]. by exists rest.
Qed.

Lemma endswith_app (s p : str) : Str.endswith (s ++ p) p = true.
Proof. unfold Str.endswith. rewrite rev_app_distr. apply startswith_app. Qed.

Lemma endswith_inv (s p : str) :
  Str.endswith s p = true → ∃ pre, s = pre ++ p.
Proof.
  unfold Str.endswith. intros [rest Hrest]%startswith_inv.
  exists (rev rest). rewrite <- (rev_involutive s), Hrest, rev_app_distr.
  by rewrite rev_involutive.
Qed.

Lemma lower_app (a b : str) : Str.lower (a ++ b) = Str.lower a ++ Str.lower b.
Proof. unfold Str.lower. apply map_app. Qed.

(** [sub in s] holds exactly when [s] has an occurrence of [sub]. *)
Lemma contains_iff (sub s : str) :
  Str.contains sub s = true ↔ ∃ pre post, s = pre ++ sub ++ post.
Proof.
  split.
  - induction s as [|c s IH]; cbn [Str.contains].
    + rewrite orb_false_r. intros [rest ->]%startswith_inv. by exists [], rest.
    + intros [H|H]%orb_prop.
      * apply startswith_inv in H as [rest ->]. by exists [], rest.
      * destruct (IH H) as (pre & post & ->). by exists (c :: pre), post.
  - intros (pre & post & ->). induction pre as [|c pre IH]; cbn [app].
    + destruct (sub ++ post) eqn:E; cbn [Str.contains];
        rewrite <- E, startswith_app; done.
    + cbn [Str.contains]. rewrite IH. apply orb_true_r.
Qed.

Lemma contains_app (sub a s b : str) :
  Str.contains sub s = true → Str.contains sub (a ++ s ++ b) = true.
Proof.
  intros (pre & post & ->)%contains_iff. apply contains_iff.
  exists (a ++ pre), (post ++ b). by rewrite <- !app_assoc.
Qed.

Lemma contains_elem (sub s : str) c :
  c ∈ sub → Str.contains sub s = true → c ∈ s.
Proof.
  intros Hc (pre & post & ->)%contains_iff.
  apply elem_of_app. right. apply elem_of_app. by left.
Qed.

End string_facts2.

(** ** Identifiers and addresses *)

Section matcher_facts2.
Import Re ReMore.

(** A literal pattern matches exactly its own characters. *)
Lemma lit_run (s : string) pos (rest : str) cs k :
  run (lit s) pos (s ++ rest) cs k = k (pos + length (s : str)) rest cs.
Proof.
  revert pos. induction s as [|c s IH]; intros pos; cbn [lit run].
  - cbn. by rewrite Nat.add_0_r.
  - cbn [list_ascii_of_string app]. rewrite char_eqb_refl, IH. cbn [length].
    f_equal. lia.
Qed.

Lemma lit_inv (s : string) pos (rest : str) cs k x :
  run (lit s) pos rest cs k = Some x →
  ∃ rest', rest = s ++ rest' ∧ k (pos + length (s : str)) rest' cs = Some x.
Proof.
  revert pos rest. induction s as [|c s IH]; intros pos rest; cbn [lit run].
  - intros H. exists rest. cbn. by rewrite Nat.add_0_r.
  - destruct rest as [|y rest]; [done|].
    destruct (Char.eqb c y) eqn:Hc; [|done].
    apply char_eqb_eq in Hc as <-.
    intros (rest' & -> & Hk)%IH. exists rest'. split; [done|].
    cbn [list_ascii_of_string length].
    by replace (pos + S (length (s : str))) with (S pos + length (s : str)) by lia.
Qed.

(** A greedy quantifier that can take [w] and then succeed on what follows
    succeeds on the whole. *)
Lemma rep_greedy_app p lo pos (w rest : str) cs k x :
  Forall (λ c, p c = true) w →
  rep true p (lo - length w) None (pos + length w) rest cs k = Some x →
  rep true p lo None pos (w ++ rest) cs k = Some x.
Proof.
  revert lo pos. induction w as [|c w IH]; intros lo pos Hall Hk.
  - cbn [length app] in *. by rewrite Nat.sub_0_r, Nat.add_0_r in Hk.
  - inversion Hall as [|? ? Hc Hw]; subst.
    cbn [app rep]. rewrite Hc. cbn [hi_allows andb hi_pred].
    rewrite (IH (pred lo) (S pos)); [done|done|].
    cbn [length] in Hk.
    replace (pred lo - length w) with (lo - S (length w)) by lia.
    by replace (S pos + length w) with (pos + S (length w)) by lia.
Qed.

Lemma search_in_first r pos (s : str) n m :
  n ≤ length s →
  (∀ j, j < n → match_at r (pos + j) (drop j s) = None) →
  match_at r (pos + n) (drop n s) = Some m →
  search_in r pos s = Some m.
Proof.
  revert pos s. induction n as [|n IH]; intros pos s Hn Hnone Hm.
  - rewrite Nat.add_0_r in Hm. rewrite drop_0 in Hm.
    destruct s; cbn [search_in]; by rewrite Hm.
  - destruct s as [|c s]; [cbn in Hn; lia|].
    cbn [search_in]. pose proof (Hnone 0 ltac:(lia)) as H0.
    rewrite Nat.add_0_r in H0. rewrite drop_0 in H0. rewrite H0.
    apply IH.
    + cbn in Hn. lia.
    + intros j Hj. specialize (Hnone (S j) ltac:(lia)).
      by replace (S pos + j) with (pos + S j) by lia.
    + by replace (S pos + n) with (pos + S n) by lia.
Qed.

Lemma search_in_none r pos (s : str) :
  (∀ j, j ≤ length s → match_at r (pos + j) (drop j s) = None) →
  search_in r pos s = None.
Proof.
  revert pos. induction s as [|c s IH]; intros pos Hnone.
  - cbn [search_in]. specialize (Hnone 0 ltac:(done)).
    rewrite Nat.add_0_r in Hnone. rewrite drop_0 in Hnone. by rewrite Hnone.
  - cbn [search_in]. pose proof (Hnone 0 ltac:(lia)) as H0.
    rewrite Nat.add_0_r in H0. rewrite drop_0 in H0. rewrite H0.
    apply IH. intros j Hj. specialize (Hnone (S j) ltac:(cbn; lia)).
    by replace (S pos + j) with (pos + S j) by lia.
Qed.

(** A pattern that begins with a literal matches only where the literal
    stands. *)
Lemma match_at_lit_inv (s : string) r pos (rest : str) m :
  match_at (Cat (lit s) r) pos rest = Some m → ∃ rest', rest = s ++ rest'.
Proof.
  unfold match_at. cbn [run].
  destruct (run (lit s) _ _ _ _) as [x|] eqn:H; [|done].
  apply lit_inv in H as (rest' & -> & _). by exists rest'.
Qed.

End matcher_facts2.

Section normalize.
Import Re ReMore ArxivCli.

Lemma id_char_not_space c : id_char c = true → Char.is_space c = false.
Proof. destruct c as [[] [] [] [] [] [] [] []]; by vm_compute. Qed.

Lemma id_char_not_slash c : id_char c = true → c ≠ "/"%char.
Proof. intros H ->. by vm_compute in H. Qed.

(** Where [ARXIV_ABS_RE] or [ARXIV_PDF_RE] matches, a slash follows within
    the next ten characters. *)
Lemma abs_re_slash pos (rest : str) m :
  match_at ARXIV_ABS_RE pos rest = Some m → rest !! 9 = Some "/"%char.
Proof. intros [rest' ->]%match_at_lit_inv. done. Qed.

Lemma pdf_re_slash pos (rest : str) m :
  match_at ARXIV_PDF_RE pos rest = Some m → rest !! 9 = Some "/"%char.
Proof. intros [rest' ->]%match_at_lit_inv. done. Qed.

Lemma no_slash_lookup (s : str) j :
  Forall (λ c, id_char c = true) s → drop j s !! 9 ≠ Some "/"%char.
Proof.
  intros Hall H. rewrite lookup_drop in H.
  apply (Forall_lookup_1 _ _ _ _ Hall) in H. by vm_compute in H.
Qed.

Lemma abs_re_bare (s : str) :
  Forall (λ c, id_char c = true) s → search ARXIV_ABS_RE s = None.
Proof.
  intros Hall. apply search_in_none. intros j _.
  destruct (match_at _ _ _) eqn:H; [|done].
  apply abs_re_slash in H. by apply no_slash_lookup in H.
Qed.

Lemma pdf_re_bare (s : str) :
  Forall (λ c, id_char c = true) s → search ARXIV_PDF_RE s = None.
Proof.
  intros Hall. apply search_in_none. intros j _.
  destruct (match_at _ _ _) eqn:H; [|done].
  apply pdf_re_slash in H. by apply no_slash_lookup in H.
Qed.

Lemma abs_re_abs_url (arxiv_id : str) :
  arxiv_id ≠ [] → Forall (λ c, id_char c = true) arxiv_id →
  search ARXIV_ABS_RE (arxiv_abs_url arxiv_id)
  = Some (Match 8 (22 + length arxiv_id) [(1, (22, 22 + length arxiv_id))]).
Proof.
  intros Hne Hall. unfold search, arxiv_abs_url.
  apply (search_in_first _ 0 _ 8).
  - rewrite length_app. cbn. lia.
  - intros j Hj. do 8 (destruct j as [|j]; [reflexivity|]). lia.
  - change (drop 8 ("https://arxiv.org/abs/" ++ arxiv_id))
      with (("arxiv.org/abs/" : str) ++ arxiv_id).
    unfold match_at, ARXIV_ABS_RE. cbn [run]. rewrite lit_run.
    unfold plus. cbn [run].
    rewrite <- (app_nil_r arxiv_id) at 1.
    erewrite (rep_greedy_max id_char 1 _ arxiv_id []); [ |done|done| |reflexivity].
    + cbn. done.
    + destruct arxiv_id; [done|cbn; lia].
Qed.

Lemma abs_re_pdf_url (arxiv_id : str) :
  Forall (λ c, id_char c = true) arxiv_id →
  search ARXIV_ABS_RE (arxiv_pdf_url arxiv_id) = None.
Proof.
  intros Hall. apply search_in_none. intros j _.
  destruct (match_at _ _ _) eqn:H; [|done].
  apply match_at_lit_inv in H as [rest' H]. exfalso.
  unfold arxiv_pdf_url in H.
  do 22 (destruct j as [|j]; [discriminate H|]).
  assert (H' : drop j (arxiv_id ++ ".pdf") = ("arxiv.org/abs/" : str) ++ rest')
    by exact H.
  assert (Hall' : Forall (λ c, id_char c = true) (arxiv_id ++ ".pdf")).
  { apply Forall_app. split; [done|]. by repeat constructor. }
  apply (no_slash_lookup _ j) in Hall'. apply Hall'. by rewrite H'.
Qed.

Lemma pdf_re_pdf_url (arxiv_id : str) :
  arxiv_id ≠ [] → Forall (λ c, id_char c = true) arxiv_id →
  search ARXIV_PDF_RE (arxiv_pdf_url arxiv_id)
  = Some (Match 8 (4 + (22 + length arxiv_id)) [(1, (22, 22 + length arxiv_id))]).
Proof.
  intros Hne Hall. unfold search, arxiv_pdf_url.
  apply (search_in_first _ 0 _ 8).
  - rewrite length_app. cbn. lia.
  - intros j Hj. do 8 (destruct j as [|j]; [reflexivity|]). lia.
  - change (drop 8 ("https://arxiv.org/pdf/" ++ arxiv_id ++ ".pdf"))
      with (("arxiv.org/pdf/" : str) ++ arxiv_id ++ ".pdf").
    unfold match_at, ARXIV_PDF_RE. cbn [run]. rewrite lit_run.
    unfold plus. cbn [run].
    rewrite (rep_greedy_app id_char 1 _ arxiv_id _ _ _
               (4 + (22 + length arxiv_id), [(1, (22, 22 + length arxiv_id))]));
      [reflexivity|done|].
    replace (1 - length arxiv_id) with 0 by (destruct arxiv_id; [done|cbn; lia]).
    reflexivity.
Qed.

Lemma slice_middle (a b c : str) :
  Str.slice (a ++ b ++ c) (length a) (length a + length b) = b.
Proof.
  unfold Str.slice. rewrite drop_app_length.
  replace (length a + length b - length a) with (length b) by lia.
  by rewrite take_app_length.
Qed.

Lemma replace_from_absent (old new s : str) :
  Str.contains old s = false → Str.replace_from old new s 0 = s.
Proof.
  induction s as [|c s IH]; [done|].
  cbn [Str.contains Str.replace_from].
  intros [H1 H2]%orb_false_elim. rewrite H1. by rewrite IH.
Qed.

End normalize.

(** X1: [normalize_arxiv_id] undoes [arxiv_abs_url] and [arxiv_pdf_url]: for
    a non-empty identifier made of the characters of [[\w.\-]], the
    identifier is read back from either address. *)
Theorem normalize_arxiv_id_of_url (arxiv_id : str) :
  arxiv_id ≠ [] →
  Forall (λ c, ArxivCli.id_char c = true) arxiv_id →
  ArxivCli.normalize_arxiv_id (ArxivCli.arxiv_abs_url arxiv_id) = Some arxiv_id
  ∧ ArxivCli.normalize_arxiv_id (ArxivCli.arxiv_pdf_url arxiv_id) = Some arxiv_id.
Proof.
  intros Hne Hall. unfold ArxivCli.normalize_arxiv_id. split.
  - rewrite abs_re_abs_url by done. cbn [Re.or_else]. unfold Re.group.
    cbn [Re.m_caps Re.lookup_group Nat.eqb]. f_equal.
    unfold ArxivCli.arxiv_abs_url.
    pose proof (slice_middle ("https://arxiv.org/abs/" : str) arxiv_id []) as H.
    by rewrite app_nil_r in H.
  - rewrite abs_re_pdf_url, pdf_re_pdf_url by done. cbn [Re.or_else].
    unfold Re.group. cbn [Re.m_caps Re.lookup_group Nat.eqb]. f_equal.
    apply (slice_middle ("https://arxiv.org/pdf/" : str) arxiv_id (".pdf" : str)).
Qed.

Lemma normalize_arxiv_id_of_url_witness :
  ArxivCli.normalize_arxiv_id ("https://arxiv.org/abs/2507.18378v1" : str)
  = Some ("2507.18378v1" : str)
  ∧ ArxivCli.normalize_arxiv_id ("https://arxiv.org/pdf/2507.18378v1.pdf" : str)
    = Some ("2507.18378v1" : str).
Proof.
  apply (normalize_arxiv_id_of_url ("2507.18378v1" : str)); [done|].
  repeat constructor.
Defined.

(** X2: on a bare identifier (characters of [[\w.\-]] only, so neither
    address pattern can match) [normalize_arxiv_id] removes the
    occurrences of [.pdf] and nothing else; an identifier without [.pdf]
    is returned unchanged. *)
Theorem normalize_arxiv_id_bare (arxiv_id : str) :
  Forall (λ c, ArxivCli.id_char c = true) arxiv_id →
  ArxivCli.normalize_arxiv_id arxiv_id = Some (Str.replace arxiv_id ".pdf" [])
  ∧ (Str.contains ".pdf" arxiv_id = false →
     ArxivCli.normalize_arxiv_id arxiv_id = Some arxiv_id).
Proof.
  intros Hall.
  assert (Hn : ArxivCli.normalize_arxiv_id arxiv_id
               = Some (Str.replace arxiv_id ".pdf" [])).
  { unfold ArxivCli.normalize_arxiv_id.
    rewrite abs_re_bare, pdf_re_bare by done. cbn [Re.or_else]. do 2 f_equal.
    unfold Str.strip. apply strip_by_keep.
    - destruct Hall as [|c s Hc _]; [done|]. by apply id_char_not_space.
    - apply rstrip_by_none. eapply Forall_impl; [exact Hall|].
      intros c Hc. by apply id_char_not_space. }
  split; [done|]. intros Hpdf. rewrite Hn. f_equal.
  by apply replace_from_absent.
Qed.

Lemma normalize_arxiv_id_bare_witness :
  ArxivCli.normalize_arxiv_id ("2507.18378v1" : str)
  = Some (Str.replace ("2507.18378v1" : str) ".pdf" [])
  ∧ ArxivCli.normalize_arxiv_id ("2507.18378v1" : str)
    = Some ("2507.18378v1" : str).
Proof.
  destruct (normalize_arxiv_id_bare ("2507.18378v1" : str)) as [H1 H2].
  - repeat constructor.
  - split; [exact H1|]. apply H2. reflexivity.
Defined.

Section derive.
Import StrMore BibUrl.

Lemma split_from_nonnil (sep s : str) skip cur : split_from sep s skip cur ≠ [].
Proof.
  revert skip cur. induction s as [|c s IH]; intros skip cur; cbn [split_from];
    [done|].
  destruct skip; [|apply IH]. destruct (Str.startswith _ _); [done|apply IH].
Qed.

Lemma split_from_absent (sep s cur : str) :
  Str.contains sep s = false → split_from sep s 0 cur = [cur ++ s].
Proof.
  revert cur. induction s as [|c s IH]; intros cur; cbn [split_from Str.contains].
  - by rewrite app_nil_r.
  - intros [H1 H2]%orb_false_elim. rewrite H1, IH by done.
    by rewrite <- app_assoc.
Qed.

Lemma split_from_miss (sep s cur : str) c :
  Str.startswith (c :: s) sep = false →
  split_from sep (c :: s) 0 cur = split_from sep s 0 (cur ++ [c]).
Proof. intros H. cbn [split_from]. by rewrite H. Qed.

Lemma split_from_hit (sep s cur : str) c :
  Str.startswith (c :: s) sep = true →
  split_from sep (c :: s) 0 cur = cur :: split_from sep s (length sep - 1) [].
Proof. intros H. cbn [split_from]. by rewrite H. Qed.

Lemma split_from_pass (sep s cur : str) c n :
  split_from sep (c :: s) (S n) cur = split_from sep s n cur.
Proof. reflexivity. Qed.

Lemma split_abs_url (arxiv_id : str) :
  Str.contains "arxiv.org/abs/" arxiv_id = false →
  split (ArxivCli.arxiv_abs_url arxiv_id) "arxiv.org/abs/"
  = [ "https://" : str; arxiv_id ].
Proof.
  intros H. pose proof (split_from_absent "arxiv.org/abs/" arxiv_id [] H) as Hs.
  cbn [app list_ascii_of_string] in Hs. unfold split, ArxivCli.arxiv_abs_url.
  cbn [app list_ascii_of_string].
  do 8 (rewrite split_from_miss by reflexivity).
  rewrite split_from_hit by apply (startswith_app "arxiv.org/abs/" arxiv_id).
  change (length _ - 1) with 13.
  do 13 rewrite split_from_pass. rewrite Hs. reflexivity.
Qed.

Lemma endswith_abs_url (arxiv_id : str) :
  Str.endswith arxiv_id ".pdf" = false →
  Str.endswith (ArxivCli.arxiv_abs_url arxiv_id) ".pdf" = false.
Proof.
  unfold Str.endswith, ArxivCli.arxiv_abs_url. rewrite rev_app_distr.
  destruct (rev arxiv_id) as [|a [|b [|c [|d r]]]]; intros H.
  - reflexivity.
  - cbn [app Str.startswith]. change (rev (".pdf" : str)) with ("fdp." : str).
    cbn [list_ascii_of_string Str.startswith].
    destruct (Char.eqb _ a); reflexivity.
  - change (rev (".pdf" : str)) with ("fdp." : str).
    cbn [app list_ascii_of_string Str.startswith].
    destruct (Char.eqb _ a); [|reflexivity].
    destruct (Char.eqb _ b); reflexivity.
  - change (rev (".pdf" : str)) with ("fdp." : str).
    cbn [app list_ascii_of_string Str.startswith].
    destruct (Char.eqb _ a); [|reflexivity].
    destruct (Char.eqb _ b); [|reflexivity].
    destruct (Char.eqb _ c); reflexivity.
  - rewrite startswith_app_long; [exact H|cbn; lia].
Qed.

Lemma contains_abs_url (arxiv_id : str) :
  Str.contains "arxiv.org/abs/" (ArxivCli.arxiv_abs_url arxiv_id) = true.
Proof. apply contains_iff. by exists ("https://" : str), arxiv_id. Qed.

Lemma lower_pdf_suffix (s : str) :
  Str.endswith (Str.lower (s ++ ".pdf")) ".pdf" = true.
Proof. rewrite lower_app. apply endswith_app. Qed.

Lemma lower_pdf_url (arxiv_id : str) :
  Str.endswith (Str.lower (ArxivCli.arxiv_pdf_url arxiv_id)) ".pdf" = true.
Proof.
  unfold ArxivCli.arxiv_pdf_url. rewrite app_assoc. apply lower_pdf_suffix.
Qed.

End derive.

(** X3: [derive_pdf_url] never raises (the [[-1]] of its [split] always
    exists), and every address it returns ends with [.pdf], case
    insensitively. *)
Theorem derive_pdf_url_ends_with_pdf (fields : gmap str str) :
  ∃ r, BibUrl.derive_pdf_url fields = Some r
       ∧ match r with
         | Some url => Str.endswith (Str.lower url) ".pdf" = true
         | None => True
         end.
Proof.
  unfold BibUrl.derive_pdf_url.
  destruct (bool_decide (fields = ∅)); [by eexists|].
  generalize (if StrMore.truthy (fields !! ("pdf" : str))
              then fields !! ("pdf" : str) else fields !! ("file" : str)).
  intros pdf_url.
  destruct (_ && _) eqn:Hpdf.
  { eexists. split; [done|]. apply andb_prop in Hpdf as [Ht Hpdf].
    by destruct pdf_url. }
  clear Hpdf.
  generalize (default [] (fields !! ("url" : str))). intros url.
  destruct (Str.endswith url ".pdf") eqn:Hurl.
  { eexists. split; [done|].
    apply endswith_inv in Hurl as [pre ->]. apply lower_pdf_suffix. }
  destruct (Str.contains _ _).
  { destruct (last _) as [arxiv_id|] eqn:Hlast.
    - eexists. split; [done|]. exact (lower_pdf_url arxiv_id).
    - apply last_None in Hlast. by apply split_from_nonnil in Hlast. }
  generalize (default [] (fields !! ("eprint" : str))). intros eprint.
  destruct (StrMore.truthy _ && Str.eqb _ _).
  - eexists. split; [done|]. exact (lower_pdf_url eprint).
  - by eexists.
Qed.

(** X4: on an entry without [pdf] and [file] fields, [derive_pdf_url] turns
    the abstract address [arxiv_abs_url id] of the [url] field into
    [arxiv_pdf_url id], for every [id] that does not end with [.pdf] and
    does not itself hold [arxiv.org/abs/]. *)
Theorem derive_pdf_url_of_abs_url (fields : gmap str str) (arxiv_id : str) :
  fields !! ("pdf" : str) = None →
  fields !! ("file" : str) = None →
  fields !! ("url" : str) = Some (ArxivCli.arxiv_abs_url arxiv_id) →
  Str.endswith arxiv_id ".pdf" = false →
  Str.contains "arxiv.org/abs/" arxiv_id = false →
  BibUrl.derive_pdf_url fields = Some (Some (ArxivCli.arxiv_pdf_url arxiv_id)).
Proof.
  intros Hpdf Hfile Hurl Hend Hcont. unfold BibUrl.derive_pdf_url.
  rewrite bool_decide_eq_false_2 by (intros ->; by rewrite lookup_empty in Hurl).
  rewrite Hpdf, Hfile, Hurl. cbn [StrMore.truthy andb default from_option].
  unfold id.
  rewrite endswith_abs_url, contains_abs_url, split_abs_url by done.
  reflexivity.
Qed.

Lemma derive_pdf_url_of_abs_url_witness :
  BibUrl.derive_pdf_url
    (dict [("title", "T"); ("url", "https://arxiv.org/abs/2507.18378")])
  = Some (Some ("https://arxiv.org/pdf/2507.18378.pdf" : str)).
Proof.
  apply (derive_pdf_url_of_abs_url _ ("2507.18378" : str)); by vm_compute.
Defined.

(** ** The catalog of a paper *)

Section category.
Import ArxivCli.

Lemma any_in_extend terms (a s b : str) :
  any_in terms (Str.lower s) = true →
  any_in terms (Str.lower (a ++ s ++ b)) = true.
Proof.
  unfold any_in. rewrite !existsb_exists.
  intros (term & Hin & Hc). exists term. split; [done|].
  rewrite !lower_app. by apply contains_app.
Qed.

End category.

(** X5: what [infer_category] returns is a key of [CATEGORY_FILES], so the
    lookup [CATEGORY_FILES[category]] of [main] finds a file; and adding
    text before and after a text never makes the inference fail, nor
    changes the answer [forecasting], which is tested first. *)
Theorem infer_category_known_and_stable (text : str) :
  (∀ category, ArxivCli.infer_category text = Some category →
     is_Some (ArxivCli.CATEGORY_FILES !! category))
  ∧ (∀ before after : str,
       is_Some (ArxivCli.infer_category text) →
       is_Some (ArxivCli.infer_category (before ++ text ++ after)))
  ∧ (∀ before after : str,
       ArxivCli.infer_category text = Some ("forecasting" : str) →
       ArxivCli.infer_category (before ++ text ++ after)
       = Some ("forecasting" : str)).
Proof.
  unfold ArxivCli.infer_category. repeat split.
  - intros category H.
    repeat (destruct (ArxivCli.any_in _ _);
            [injection H as <-; vm_compute; by eexists|]).
    done.
  - intros before after H.
    destruct (ArxivCli.any_in ArxivCli.forecasting_terms (Str.lower text)) eqn:H1.
    { by rewrite (any_in_extend _ before text after H1). }
    destruct (ArxivCli.any_in ArxivCli.downscaling_terms (Str.lower text)) eqn:H2.
    { rewrite (any_in_extend _ before text after H2). by repeat case_match. }
    destruct (ArxivCli.any_in ArxivCli.global_terms (Str.lower text)) eqn:H3.
    { rewrite (any_in_extend _ before text after H3). by repeat case_match. }
    by destruct H.
  - intros before after H.
    destruct (ArxivCli.any_in ArxivCli.forecasting_terms (Str.lower text)) eqn:H1.
    { by rewrite (any_in_extend _ before text after H1). }
    repeat (destruct (ArxivCli.any_in _ (Str.lower text)); [by vm_compute in H|]).
    done.
Qed.

Lemma infer_category_known_and_stable_witness :
  is_Some (ArxivCli.CATEGORY_FILES !! ("forecasting" : str))
  ∧ is_Some (ArxivCli.infer_category
               (("A " : str) ++ ("Stretched-Grid model" : str) ++ (" with diffusion" : str)))
  ∧ ArxivCli.infer_category
      (("A " : str) ++ ("Stretched-Grid model" : str) ++ (" with diffusion" : str))
    = Some ("forecasting" : str).
Proof.
  destruct (infer_category_known_and_stable ("Stretched-Grid model" : str))
    as (H1 & H2 & H3).
  split; [|split].
  - apply H1. reflexivity.
  - apply H2. by eexists.
  - apply H3. reflexivity.
Defined.

(** ** More on the front-matter extractor *)

Section extractor_window.
Import Re Arxiv Header HeaderMore.

Lemma header_loop_banner lines acc arxiv_line :
  (header_loop lines acc arxiv_line).2
  = last_banner arxiv_line (take_until is_abstract lines).
Proof.
  revert acc arxiv_line.
  induction lines as [|line lines IH]; intros acc arxiv_line;
    cbn [header_loop take_until snd]; [done|].
  fold (is_abstract line).
  destruct (is_abstract line); cbn [snd]; [done|].
  rewrite IH. unfold last_banner. cbn [foldl]. done.
Qed.

Lemma header_loop_of_window (text : str) :
  header_loop (take 80 (map Str.rstrip (Str.splitlines text))) [] []
  = (window text, last_banner [] (window text)).
Proof.
  rewrite (surjective_pairing (header_loop _ _ _)).
  by rewrite header_loop_window, header_loop_banner.
Qed.

Lemma extract_of_window (t1 t2 : str) :
  window t1 = window t2 →
  extract_basic_metadata t1 = extract_basic_metadata t2.
Proof.
  intros H. unfold extract_basic_metadata.
  by rewrite !header_loop_of_window, H.
Qed.

End extractor_window.

Section after_abstract.
Import Re Arxiv Header HeaderMore.

Lemma linebreak_newline : Char.is_linebreak Char.newline = true.
Proof. reflexivity. Qed.

Lemma not_linebreak_not_cr c :
  Char.is_linebreak c = false → Char.eqb c Char.cr = false.
Proof. destruct c as [[] [] [] [] [] [] [] []]; by vm_compute. Qed.

End after_abstract.

(** ** The remaining examples of the specification *)

Example parse_example :
  Bib.parse_fields (py "@misc{doe2024foo,\n  title = {Foo Bar},\n  year = {2024}\n}")
  = Some (Some ("doe2024foo" : str), dict [("title", "Foo Bar"); ("year", "2024")]).
Proof. vm_compute. reflexivity. Qed.

Example back_to_back_entries :
  Bib.extract_entries (py "@misc{a, t = {x}}@book{b, y = {z}}")
  = Some [py "@misc{a, t = {x}}"; py "@book{b, y = {z}}"].
Proof. vm_compute. reflexivity. Qed.
